(** * Print mechanism emulator and sample decoder of the LTPD245 analyser

    Shallow embedding of
    - [martel_print_mech_analyser/printout_generation.py]
      ([PrintMechEmulator], [read_mech_input]);
    - [martel_print_mech_analyser/signal_analyser/digilent_digital_discovery.py]
      ([DigilentDDiscovery._get_samples], [get_data], [export_data]);
    - [martel_print_mech_analyser/ltpd245.py] ([LTPD245Analyser]);
    - [martel_printer_test_library/print_mech_analyser/printout_generation.py]
      ([PrintMechState], [PaperBuffer]), the sibling emulator that consumes
      the [MechInput] values produced by [read_mech_input].

    Numbers are rationals in canonical form ([Qc]), so that equal values
    are Leibniz-equal, and float arithmetic is written out with an explicit
    IEEE 754 rounding ([fl32], [fl64]) where the source computes in float:
    the decoder's timestamps are [float64(k * float64(1/F))] of an [int32]
    time index [k], stored as [float32] in the records; the rasteriser
    computes in float32. [Emulator] and [MechState] accumulate burn times
    exactly and round a cell once when it is rasterised; [EmulatorF] is the
    same [PrintMechEmulator.update] with the source's float operations
    (a float64 burn time, float32 paper cells, NumPy 1 promotion rules).
    Signal bits (0 or 1 after [np.unpackbits]) are booleans, bytes and
    counters are [Z]. *)

From Stdlib Require Import String ZArith QArith Qcanon Qround Qpower Qabs List Bool Lia Lqa.
Import ListNotations.

Open Scope Z_scope.

(** ** Shared data *)

Definition DOTS_PER_LINE : nat := 384.

(** A [SampleRecord] (dtype of [signal_analyser.SampleRecord]). *)
Record SampleRecord := mkRecord {
  timestamp : Qc;
  clock : bool;
  data : bool;
  dst : bool;
  latch : bool;
  motor1 : bool;
  motor2 : bool
}.

(** A 0/1 register entry multiplied by a float: [uint8 * float]. *)
Definition bitQ (b : bool) : Qc := if b then 1%Qc else 0%Qc.

(** [row += burn_buffer] for rows of equal length. *)
Fixpoint row_add (row buf : list Qc) : list Qc :=
  match row, buf with
  | x :: row', y :: buf' => (x + y)%Qc :: row_add row' buf'
  | _, _ => row
  end.

(** In-place update of the row at index [n]; indices used by the code are
    [len-2] and [len-1] of a buffer that always holds at least two rows. *)
Fixpoint update_nth {A} (n : nat) (f : A -> A) (l : list A) : list A :=
  match l, n with
  | [], _ => []
  | x :: l', O => f x :: l'
  | x :: l', S n' => x :: update_nth n' f l'
  end.

Definition zero_row : list Qc := repeat 0%Qc DOTS_PER_LINE.
Definition zero_register : list bool := repeat false DOTS_PER_LINE.

(** [shift[:-1] = shift[1:]; shift[-1] = bit] *)
Definition shift_in (reg : list bool) (bit : bool) : list bool :=
  tl reg ++ [bit].

(** Observable calls made while updating: [_burn_latch_register(between)]
    with the latch register and burn time it used, and [_advance_line()]. *)
Inductive mech_event :=
| EvBurn (between : bool) (latch_reg : list bool) (t : Qc)
| EvAdvance.

(** ** Rasterisation *)

(** IEEE 754 binary rounding to nearest, ties to even, of a rational. *)
Definition pow2 (e : Z) : Q :=
  if 0 <=? e then inject_Z (2 ^ e) else 1 # Z.to_pos (2 ^ (- e)).

Definition round_half_even (x : Q) : Z :=
  let f := Qfloor x in
  match Qcompare (x - inject_Z f) (1 # 2) with
  | Lt => f
  | Gt => f + 1
  | Eq => if Z.even f then f else f + 1
  end.

(** [floor(log2 q)] for [0 < q]. *)
Definition floor_log2 (q : Q) : Z :=
  let l := Z.log2 (Qnum q) - Z.log2 (Zpos (Qden q)) in
  if Qle_bool (pow2 l) q then l else l - 1.

(** Rounding of [0 < q] to [prec] significant bits, with least exponent
    [emin] (subnormals); overflow to infinity does not arise here. *)
Definition round_pos (prec emin : Z) (q : Q) : Q :=
  let e := Z.max emin (floor_log2 q - (prec - 1)) in
  inject_Z (round_half_even (q * pow2 (- e))) * pow2 e.

Definition round_bin (prec emin : Z) (q : Q) : Q :=
  match Qcompare q 0 with
  | Gt => round_pos prec emin q
  | Eq => 0
  | Lt => - round_pos prec emin (- q)
  end.

(** [float32] and [float64] *)
Definition fl32 : Q -> Q := round_bin 24 (-149).
Definition fl64 : Q -> Q := round_bin 53 (-1074).

(** The same on canonical rationals. *)
Definition f32 (q : Qc) : Qc := Q2Qc (fl32 (this q)).
Definition f64 (q : Qc) : Qc := Q2Qc (fl64 (this q)).

(** Two's complement wrap-around of an [int32] result. *)
Definition int32 (z : Z) : Z := (z + 2 ^ 31) mod 2 ^ 32 - 2 ^ 31.

(** [.astype(uint8)] of an integral float. *)
Definition uint8_of (z : Z) : Z := z mod 256.

(** [paper *= 25000; ceil; maximum(255 - paper, 0).astype(uint8)] on a
    float32 cell holding the burn time [t]. *)
Definition pixel (t : Qc) : Z :=
  uint8_of (Z.max (255 - Qceiling (fl32 (fl32 (this t) * inject_Z 25000))) 0).

Definition rasterise (paper : list (list Qc)) : list (list Z) :=
  map (map pixel) paper.

(** ** [PrintMechEmulator] (martel_print_mech_analyser) *)

Module Emulator.

Record PrintMechEmulator := mkEmu {
  shift_register : list bool;
  latch_register : list bool;
  paper_buffer : list (list Qc);
  burn_time : Qc;
  motor_steps : Z;
  last_timestamp : Qc;
  last_clock : bool;
  last_dst : bool;
  last_latch : bool;
  last_motor_state : Z
}.

(** A small writer monad recording the [mech_event]s of an update. *)
Definition M (A : Type) : Type := (A * list mech_event)%type.
Definition ret {A} (a : A) : M A := (a, []).
Definition bind {A B} (m : M A) (f : A -> M B) : M B :=
  let '(a, e1) := m in let '(b, e2) := f a in (b, e1 ++ e2).
Notation "x <- m ;; k" := (bind m (fun x => k))
  (at level 61, m at next level, right associativity).

(** [motor_state = input['motor1'] + input['motor2']] *)
Definition motor_state_of (r : SampleRecord) : Z :=
  Z.b2z (motor1 r) + Z.b2z (motor2 r).

Definition init (r : SampleRecord) : PrintMechEmulator :=
  {| shift_register := zero_register;
     latch_register := zero_register;
     paper_buffer := [zero_row; zero_row];
     burn_time := 0;
     motor_steps := 0;
     last_timestamp := timestamp r;
     last_clock := clock r;
     last_dst := dst r;
     last_latch := latch r;
     last_motor_state := motor_state_of r |}.

Definition with_paper (s : PrintMechEmulator) (p : list (list Qc)) (bt : Qc) :=
  {| shift_register := shift_register s; latch_register := latch_register s;
     paper_buffer := p; burn_time := bt; motor_steps := motor_steps s;
     last_timestamp := last_timestamp s; last_clock := last_clock s;
     last_dst := last_dst s; last_latch := last_latch s;
     last_motor_state := last_motor_state s |}.

Definition with_burn (s : PrintMechEmulator) (bt : Qc) :=
  with_paper s (paper_buffer s) bt.

Definition with_registers (s : PrintMechEmulator) (sh la : list bool) :=
  {| shift_register := sh; latch_register := la;
     paper_buffer := paper_buffer s; burn_time := burn_time s;
     motor_steps := motor_steps s;
     last_timestamp := last_timestamp s; last_clock := last_clock s;
     last_dst := last_dst s; last_latch := last_latch s;
     last_motor_state := last_motor_state s |}.

Definition with_steps (s : PrintMechEmulator) (n : Z) :=
  {| shift_register := shift_register s; latch_register := latch_register s;
     paper_buffer := paper_buffer s; burn_time := burn_time s;
     motor_steps := n;
     last_timestamp := last_timestamp s; last_clock := last_clock s;
     last_dst := last_dst s; last_latch := last_latch s;
     last_motor_state := last_motor_state s |}.

(** [_burn_latch_register(between_lines)] *)
Definition burn_latch_register (between : bool) (s : PrintMechEmulator)
  : M PrintMechEmulator :=
  let buf := map (fun b => bitQ b * burn_time s)%Qc (latch_register s) in
  let n := length (paper_buffer s) in
  let p1 := update_nth (n - 2) (fun row => row_add row buf) (paper_buffer s) in
  let p2 := if between then update_nth (n - 1) (fun row => row_add row buf) p1
            else p1 in
  (with_paper s p2 0, [EvBurn between (latch_register s) (burn_time s)]).

(** [_advance_line()] *)
Definition advance_line (s : PrintMechEmulator) : M PrintMechEmulator :=
  (with_paper s (paper_buffer s ++ [zero_row]) (burn_time s), [EvAdvance]).

(** Step 1: DST accumulates burn time. *)
Definition dst_step (r : SampleRecord) (s : PrintMechEmulator) : M PrintMechEmulator :=
  if last_dst s then ret (with_burn s (burn_time s + (timestamp r - last_timestamp s))%Qc)
  else ret s.

(** Step 2: latch falling edge. *)
Definition latch_step (r : SampleRecord) (s : PrintMechEmulator) : M PrintMechEmulator :=
  if last_latch s && negb (latch r) then
    s1 <- burn_latch_register false s ;;
    ret (with_registers s1 (shift_register s1) (shift_register s1))
  else ret s.

(** Step 3: clock rising edge. *)
Definition clock_step (r : SampleRecord) (s : PrintMechEmulator) : M PrintMechEmulator :=
  if clock r && negb (last_clock s) then
    ret (with_registers s (shift_in (shift_register s) (data r)) (latch_register s))
  else ret s.

(** Step 4: stepper motor. *)
Definition motor_step (r : SampleRecord) (s : PrintMechEmulator) : M PrintMechEmulator :=
  if negb (motor_state_of r =? last_motor_state s) then
    let s1 := with_steps s (motor_steps s + 2) in
    if motor_steps s1 =? 2 then burn_latch_register true s1
    else if 4 <=? motor_steps s1 then
      s2 <- burn_latch_register false s1 ;;
      s3 <- advance_line s2 ;;
      ret (with_steps s3 0)
    else ret s1
  else ret s.

(** Step 5: commit the current values as the previous ones. *)
Definition commit (r : SampleRecord) (s : PrintMechEmulator) : PrintMechEmulator :=
  {| shift_register := shift_register s; latch_register := latch_register s;
     paper_buffer := paper_buffer s; burn_time := burn_time s;
     motor_steps := motor_steps s;
     last_timestamp := timestamp r; last_clock := clock r;
     last_dst := dst r; last_latch := latch r;
     last_motor_state := motor_state_of r |}.

Definition update_tr (s : PrintMechEmulator) (r : SampleRecord) : M PrintMechEmulator :=
  s1 <- dst_step r s ;;
  s2 <- latch_step r s1 ;;
  s3 <- clock_step r s2 ;;
  s4 <- motor_step r s3 ;;
  ret (commit r s4).

(** [update(input)] *)
Definition update (s : PrintMechEmulator) (r : SampleRecord) : PrintMechEmulator :=
  fst (update_tr s r).

Definition run (s : PrintMechEmulator) (rs : list SampleRecord) : PrintMechEmulator :=
  fold_left update rs s.

(** [get_printout()]: the image and the emulator state it leaves. *)
Definition get_printout (s : PrintMechEmulator) : list (list Z) * PrintMechEmulator :=
  let s1 := fst (burn_latch_register false s) in
  (rasterise (paper_buffer s1), s1).

End Emulator.

(** ** [PrintMechEmulator] with the source's float arithmetic *)

(** [update] as in [Emulator], with the burn time and the paper cells
    computed as the source computes them under NumPy 1's promotion rules:
    [timestamp - self._last_timestamp] of two float32 fields is a float32,
    [self._burn_time += ...] a float64 sum, [self._latch_register *
    self._burn_time] a float64 array, and [self._paper_buffer[-2] +=
    burn_buffer] a float64 sum stored back into the float32 row. The
    clock step and the commit are those of [Emulator]. *)
Module EmulatorF.
Import Emulator.

(** [row += burn_buffer] on a float32 row and a float64 buffer. *)
Fixpoint row_add_f32 (row buf : list Qc) : list Qc :=
  match row, buf with
  | x :: row', y :: buf' => f32 (f64 (x + y)) :: row_add_f32 row' buf'
  | _, _ => row
  end.

(** [_burn_latch_register(between_lines)] *)
Definition burn_latch_register (between : bool) (s : PrintMechEmulator)
  : M PrintMechEmulator :=
  let buf := map (fun b => f64 (bitQ b * burn_time s)) (latch_register s) in
  let n := length (paper_buffer s) in
  let p1 := update_nth (n - 2) (fun row => row_add_f32 row buf) (paper_buffer s) in
  let p2 := if between then update_nth (n - 1) (fun row => row_add_f32 row buf) p1
            else p1 in
  (with_paper s p2 0, [EvBurn between (latch_register s) (burn_time s)]).

(** Step 1: DST accumulates burn time. *)
Definition dst_step (r : SampleRecord) (s : PrintMechEmulator) : M PrintMechEmulator :=
  if last_dst s
  then ret (with_burn s (f64 (burn_time s + f32 (timestamp r - last_timestamp s))))
  else ret s.

(** Step 2: latch falling edge. *)
Definition latch_step (r : SampleRecord) (s : PrintMechEmulator) : M PrintMechEmulator :=
  if last_latch s && negb (latch r) then
    s1 <- burn_latch_register false s ;;
    ret (with_registers s1 (shift_register s1) (shift_register s1))
  else ret s.

(** Step 4: stepper motor. *)
Definition motor_step (r : SampleRecord) (s : PrintMechEmulator) : M PrintMechEmulator :=
  if negb (motor_state_of r =? last_motor_state s) then
    let s1 := with_steps s (motor_steps s + 2) in
    if motor_steps s1 =? 2 then burn_latch_register true s1
    else if 4 <=? motor_steps s1 then
      s2 <- burn_latch_register false s1 ;;
      s3 <- advance_line s2 ;;
      ret (with_steps s3 0)
    else ret s1
  else ret s.

Definition update_tr (s : PrintMechEmulator) (r : SampleRecord) : M PrintMechEmulator :=
  s1 <- dst_step r s ;;
  s2 <- latch_step r s1 ;;
  s3 <- clock_step r s2 ;;
  s4 <- motor_step r s3 ;;
  ret (commit r s4).

(** [update(input)] *)
Definition update (s : PrintMechEmulator) (r : SampleRecord) : PrintMechEmulator :=
  fst (update_tr s r).

Definition run (s : PrintMechEmulator) (rs : list SampleRecord) : PrintMechEmulator :=
  fold_left update rs s.

(** [update] over a list of records, keeping the [mech_event]s. *)
Fixpoint run_tr (s : PrintMechEmulator) (rs : list SampleRecord)
  : PrintMechEmulator * list mech_event :=
  match rs with
  | [] => (s, [])
  | r :: rs' => let '(s1, e1) := update_tr s r in
                let '(s2, e2) := run_tr s1 rs' in (s2, e1 ++ e2)
  end.

(** [get_printout()]: the image and the emulator state it leaves. *)
Definition get_printout (s : PrintMechEmulator) : list (list Z) * PrintMechEmulator :=
  let s1 := fst (burn_latch_register false s) in
  (rasterise (paper_buffer s1), s1).

End EmulatorF.

(** ** CSV export and re-load *)

Module Csv.

(** A CSV cell as written by [csv.writer]: the float timestamp or an integer
    bit. The text form of a number is assumed to parse back to the same
    number. *)
Inductive cell := CFloat (q : Qc) | CInt (z : Z).

Definition row := list cell.

Definition header : list String.string := ["Timestamp"; "Clock"; "Data"; "DST"; "Latch"; "Motor1"; "Motor2"]%string.

(** One row of [DigilentDDiscovery.export_data]. *)
Definition export_row (r : SampleRecord) : row :=
  [CFloat (timestamp r); CInt (Z.b2z (clock r)); CInt (Z.b2z (data r));
   CInt (Z.b2z (dst r)); CInt (Z.b2z (latch r));
   CInt (Z.b2z (motor1 r)); CInt (Z.b2z (motor2 r))].

Definition export_data (rs : list SampleRecord) : list String.string * list row :=
  (header, map export_row rs).

(** [float(cell)] and [int(cell)]; [None] stands for a [ValueError]. *)
Definition to_float (c : cell) : option Qc :=
  match c with CFloat q => Some q | CInt z => Some (Q2Qc (inject_Z z)) end.
Definition to_int (c : cell) : option Z :=
  match c with CInt z => Some z | CFloat _ => None end.

Record MechInput := mkMechInput {
  mi_timestamp : Qc;
  spi_clock : Z;
  spi_data : Z;
  mi_latch : Z;
  mi_dst : Z;
  motor_state : Z
}.

(** The body of the loop of [read_mech_input], on one row ([state]). *)
Definition read_row (state : row) : option MechInput :=
  match state with
  | [c0; c1; c2; c3; c4; c5; c6] =>
      match to_float c0, to_int c1, to_int c2, to_int c3, to_int c4,
            to_int c5, to_int c6 with
      | Some ts, Some clk, Some dat, Some l, Some d, Some motor_al, Some motor_bl =>
          Some {| mi_timestamp := ts; spi_clock := clk; spi_data := dat;
                  mi_latch := l; mi_dst := d;
                  motor_state := Z.shiftl motor_bl 1 + Z.shiftl motor_al 0 |}
      | _, _, _, _, _, _, _ => None
      end
  | _ => None
  end.

(** [read_mech_input]: the header row is skipped. *)
Definition read_mech_input (csv : list String.string * list row) : option (list MechInput) :=
  fold_right (fun st acc =>
    match read_row st, acc with
    | Some m, Some ms => Some (m :: ms)
    | _, _ => None
    end) (Some []) (snd csv).

(** The [MechInput] carrying the fields of an in-memory record by name. *)
Definition mech_input_of_record (r : SampleRecord) : MechInput :=
  {| mi_timestamp := timestamp r; spi_clock := Z.b2z (clock r);
     spi_data := Z.b2z (data r); mi_latch := Z.b2z (latch r);
     mi_dst := Z.b2z (dst r);
     motor_state := Z.shiftl (Z.b2z (motor2 r)) 1 + Z.b2z (motor1 r) |}.

End Csv.

(** ** [PrintMechState] and [PaperBuffer]
    (martel_printer_test_library), the emulator fed by [read_mech_input]. *)

Module MechState.
Import Csv.

Record PrintMechState := mkState {
  last_input : MechInput;
  shift_register : list bool;
  latch_register : list bool;
  paper : list (list Qc);
  burn_time : Qc;
  motor_steps : Z
}.

Definition init (m : MechInput) : PrintMechState :=
  {| last_input := m; shift_register := zero_register;
     latch_register := zero_register; paper := [zero_row; zero_row];
     burn_time := 0; motor_steps := 0 |}.

(** [PaperBuffer.burn_line] *)
Definition burn_line (p : list (list Qc)) (buf : list Qc) (between : bool) :=
  let n := length p in
  let p1 := update_nth (n - 2) (fun row => row_add row buf) p in
  if between then update_nth (n - 1) (fun row => row_add row buf) p1 else p1.

(** [_burn_latch_register] *)
Definition burn_latch_register (between : bool) (s : PrintMechState) : PrintMechState :=
  let buf := map (fun b => bitQ b * burn_time s)%Qc (latch_register s) in
  {| last_input := last_input s; shift_register := shift_register s;
     latch_register := latch_register s;
     paper := burn_line (paper s) buf between;
     burn_time := 0; motor_steps := motor_steps s |}.

Definition set_motor (s : PrintMechState) (n : Z) (p : list (list Qc)) :=
  {| last_input := last_input s; shift_register := shift_register s;
     latch_register := latch_register s; paper := p;
     burn_time := burn_time s; motor_steps := n |}.

(** [PrintMechState.update] *)
Definition update (s : PrintMechState) (i : MechInput) : PrintMechState :=
  let li := last_input s in
  let bt := if mi_dst li =? 1 then (burn_time s + (mi_timestamp i - mi_timestamp li))%Qc
            else burn_time s in
  let s1 := {| last_input := li; shift_register := shift_register s;
               latch_register := latch_register s; paper := paper s;
               burn_time := bt; motor_steps := motor_steps s |} in
  let s2 := if (mi_latch li =? 1) && (mi_latch i =? 0) then
              let s' := burn_latch_register false s1 in
              {| last_input := li; shift_register := shift_register s';
                 latch_register := shift_register s'; paper := paper s';
                 burn_time := burn_time s'; motor_steps := motor_steps s' |}
            else s1 in
  let s3 := if (spi_clock i =? 1) && (spi_clock li =? 0) then
              {| last_input := li;
                 shift_register := shift_in (shift_register s2) (spi_data i =? 1);
                 latch_register := latch_register s2; paper := paper s2;
                 burn_time := burn_time s2; motor_steps := motor_steps s2 |}
            else s2 in
  let s4 := if negb (motor_state i =? motor_state li) then
              let s' := set_motor s3 (motor_steps s3 + 2) (paper s3) in
              if motor_steps s' =? 2 then burn_latch_register true s'
              else if 4 <=? motor_steps s' then
                let s'' := burn_latch_register false s' in
                set_motor s'' 0 (paper s'' ++ [zero_row])
              else s'
            else s3 in
  {| last_input := i; shift_register := shift_register s4;
     latch_register := latch_register s4; paper := paper s4;
     burn_time := burn_time s4; motor_steps := motor_steps s4 |}.

Definition run (s : PrintMechState) (is : list MechInput) : PrintMechState :=
  fold_left update is s.

(** [cv2.copyMakeBorder(..., value=255)] with a border of
    [int(DOTS_PER_LINE * 0.10)] = 38 pixels on every side. *)
Definition border : nat := 38.

Definition add_border (img : list (list Z)) : list (list Z) :=
  let width := (border + DOTS_PER_LINE + border)%nat in
  repeat (repeat 255 width) border
  ++ map (fun row => repeat 255 border ++ row ++ repeat 255 border) img
  ++ repeat (repeat 255 width) border.

(** [PaperBuffer.as_printout]: the image, and the buffer it leaves behind
    ([self._buffer *= 25000] and [np.ceil] act in place on float64 cells). *)
Definition as_printout (p : list (list Qc)) : list (list Z) * list (list Qc) :=
  let scaled := map (map (fun t => Q2Qc (inject_Z (Qceiling (fl64 (fl64 (this t) * inject_Z 25000)))))) p in
  let img := map (map (fun x => uint8_of (Z.max (255 - Qfloor (this x)) 0))) scaled in
  (add_border img, scaled).

(** [PrintMechState.get_printout] *)
Definition get_printout (s : PrintMechState) : list (list Z) :=
  fst (as_printout (paper (burn_latch_register false s))).

End MechState.

(** ** [DigilentDDiscovery] sample decoding *)

Module Decoder.

(** [_COUNT_FREQ] *)
Definition COUNT_FREQ : positive := 10000.

(** [np.iinfo(uint8).max + 1] *)
Definition WRAP : Z := 256.

Record DigilentDDiscovery := mkDec {
  global_counter : Z;
  last_count : Z;
  samples : list (list Z);
  timestamps : list (list Qc)
}.

Definition fresh : DigilentDDiscovery :=
  {| global_counter := 0; last_count := 0; samples := []; timestamps := [] |}.

(** [data[0::2]] and [data[1::2]] *)
Fixpoint evens (l : list Z) : list Z :=
  match l with x :: _ :: l' => x :: evens l' | [x] => [x] | [] => [] end.
Fixpoint odds (l : list Z) : list Z :=
  match l with _ :: y :: l' => y :: odds l' | _ => [] end.

(** [np.split(counter, np.flatnonzero(np.diff(counter) < 0) + 1)]: the runs
    of [counter] cut before every entry smaller than its predecessor. *)
Fixpoint split_runs (l : list Z) : list (list Z) :=
  match l with
  | [] => [[]]
  | x :: l' =>
      match split_runs l' with
      | (y :: r) :: rest => if y <? x then [x] :: (y :: r) :: rest
                            else (x :: y :: r) :: rest
      | [] :: rest => [x] :: rest
      | [] => [[x]]
      end
  end.

(** The loop over [count_cycles]: every run is moved by the global counter,
    which grows by [WRAP] after every run but the last. The runs are views of
    the [int32] array [counter], so the loop updates [counter] itself and
    [count_cycles[i] += self._global_counter] wraps as an [int32] (NumPy 1;
    NumPy 2 raises [OverflowError] once the Python int [_global_counter]
    itself leaves the [int32] range). *)
Fixpoint shift_runs (g : Z) (runs : list (list Z)) : list (list Z) * Z :=
  match runs with
  | [] => ([], g)
  | [r] => ([map (fun c => int32 (g + c)) r], g)
  | r :: rs => let '(rs', g') := shift_runs (g + WRAP) rs in
               (map (fun c => int32 (g + c)) r :: rs', g')
  end.

(** Global counter reconstruction of [_get_samples]: the global time indices,
    the new [_global_counter] and the new [_last_count]. *)
Definition reconstruct (g last : Z) (counter : list Z) : list Z * Z * Z :=
  let g1 := if hd 0 counter <? last then g + WRAP else g in
  let last' := List.last counter 0 in
  let '(runs, g2) := shift_runs g1 (split_runs counter) in
  (concat runs, g2, last').

(** [1 / self._COUNT_FREQ], a Python float. *)
Definition COUNT_PERIOD : Q := fl64 (1 # COUNT_FREQ).

(** [counter * (1 / self._COUNT_FREQ)]: an [int32] array times a float is a
    float64 array. *)
Definition tick_time (k : Z) : Qc := Q2Qc (fl64 (inject_Z k * COUNT_PERIOD)).

(** [samples[:-1] != samples[1:]] *)
Fixpoint adjacent_ne (l : list Z) : list bool :=
  match l with
  | x :: ((y :: _) as l') => negb (x =? y) :: adjacent_ne l'
  | _ => []
  end.

(** [samples[0] == last_sample], where [None] compares unequal. *)
Definition eq_last (s0 : Z) (last_sample : option Z) : bool :=
  match last_sample with Some v => s0 =? v | None => false end.

(** [_get_samples] on the bytes returned by [statusData]: the new decoder
    state and the returned value. *)
Definition get_samples (st : DigilentDDiscovery) (data : list Z)
  : DigilentDDiscovery * option (list Z * list Qc) :=
  match data with
  | [] => (st, None)
  | _ =>
    let smp := evens data in
    let counter := odds data in
    let '(ticks, g', last') := reconstruct (global_counter st) (last_count st) counter in
    let ts := map tick_time ticks in
    let st' := {| global_counter := g'; last_count := last';
                  samples := samples st; timestamps := timestamps st |} in
    let last_sample := match List.rev (samples st) with
                       | b :: _ => Some (List.last b 0) | [] => None end in
    let non_repeated := adjacent_ne smp in
    if negb (existsb (fun b => b) (removelast non_repeated))
       && eq_last (hd 0 smp) last_sample
    then (st', None)
    else (st', Some (smp, ts))
  end.

(** The sibling decoder (martel_printer_test_library) compares
    [samples != np.r_[samples[1:], None]] and then drops the last entry, so
    it looks at every adjacent pair. *)
Definition sibling_drops (smp : list Z) (last_sample : option Z) : bool :=
  let non_repeated := adjacent_ne smp ++ [true] in
  negb (existsb (fun b => b) (removelast non_repeated))
  && eq_last (hd 0 smp) last_sample.

(** [self._samples.append(samples); self._timestamps.append(timestamps)] *)
Definition store (st : DigilentDDiscovery) (smp : list Z) (ts : list Qc) : DigilentDDiscovery :=
  {| global_counter := global_counter st; last_count := last_count st;
     samples := samples st ++ [smp]; timestamps := timestamps st ++ [ts] |}.

(** One [_get_samples] call whose result is stored when it is not [None]. *)
Definition process_read (st : DigilentDDiscovery) (data : list Z) : DigilentDDiscovery :=
  match get_samples st data with
  | (st', Some (smp, ts)) => store st' smp ts
  | (st', None) => st'
  end.

(** [DwfState] *)
Inductive DwfState := Ready | Config | Prefill | Armed | Wait | Triggered | Running | Done.

(** The [while] loop of [process_capture]: [reads] lists, for the
    iterations that start before the timeout point, the device status and
    (when it is [Triggered]) the bytes of the read. [last_ts] is
    [last_samples_timestamp]. The result is the decoder state and [true]
    for the [return] of the idle check, [false] for the [CaptureTimeout]
    raised when the loop ends. *)
Fixpoint capture_loop (st : DigilentDDiscovery) (last_ts : option Qc)
  (reads : list (DwfState * list Z)) : DigilentDDiscovery * bool :=
  match reads with
  | [] => (st, false)
  | (status, data) :: reads' =>
      match status with
      | Triggered =>
          match get_samples st data with
          | (st', Some (smp, ts)) =>
              capture_loop (store st' smp ts) (Some (List.last ts 0%Qc)) reads'
          | (st', None) =>
              match last_ts with
              | Some lt =>
                  (* [current_time = self._global_counter * (1 / self._COUNT_FREQ)] *)
                  let current_time := fl64 (inject_Z (global_counter st') * COUNT_PERIOD) in
                  if Qle_bool 1 (fl64 (current_time - this lt)) then (st', true)
                  else capture_loop st' last_ts reads'
              | None => capture_loop st' None reads'
              end
          end
      | _ => capture_loop st last_ts reads'
      end
  end.

(** [process_capture] *)
Definition process_capture (st : DigilentDDiscovery) (reads : list (DwfState * list Z)) :=
  capture_loop st None reads.

(** [np.unpackbits(..., count=6, bitorder='little')] into a record whose
    [timestamp] field is a float32. *)
Definition unpack (ts : Qc) (s : Z) : SampleRecord :=
  {| timestamp := f32 ts; clock := Z.testbit s 0; data := Z.testbit s 1;
     dst := Z.testbit s 2; latch := Z.testbit s 3;
     motor1 := Z.testbit s 4; motor2 := Z.testbit s 5 |}.

(** [get_data]; [None] when [np.concatenate] is given no array. *)
Definition get_data (st : DigilentDDiscovery) : option (list SampleRecord) :=
  match samples st with
  | [] => None
  | _ => Some (map (fun '(s, t) => unpack t s)
                   (combine (concat (samples st)) (concat (timestamps st))))
  end.

(** The bytes a read returns for samples [(signals, tick)], where [tick] is the
    true number of counter ticks since the counter started. *)
Definition encode (batch : list (Z * Z)) : list Z :=
  flat_map (fun '(s, k) => [s; k mod WRAP]) batch.

(** [clear_data]: the stored data and [_global_counter] are reset;
    [_last_count] keeps its value (the [_global_counter_lock] attribute it
    sets is not read by this class). *)
Definition clear_data (st : DigilentDDiscovery) : DigilentDDiscovery :=
  {| global_counter := 0; last_count := last_count st; samples := []; timestamps := [] |}.

(** [take_avalable_data] for the device status [status] and, when it is
    [Triggered], the bytes [data] of the read: the decoded records of one
    [_get_samples] call; they are returned, not stored. *)
Definition take_avalable_data (st : DigilentDDiscovery) (status : DwfState) (data : list Z)
  : DigilentDDiscovery * option (list SampleRecord) :=
  match status with
  | Prefill => (st, None)
  | Armed => (st, None)
  | Triggered =>
      match get_samples st data with
      | (st', None) => (st', None)
      | (st', Some (smp, ts)) => (st', Some (map (fun '(s, t) => unpack t s) (combine smp ts)))
      end
  | _ => (st, None)
  end.

(** Reading aids for the statements below (not part of the source). *)

(** The reconstruction as a left-to-right scan: the running global counter
    grows by [WRAP] before every entry smaller than the previous one. *)
Fixpoint scan (g prev : Z) (cs : list Z) : list Z * Z :=
  match cs with
  | [] => ([], g)
  | c :: cs' =>
      let g' := if c <? prev then g + WRAP else g in
      let '(ks, gf) := scan g' c cs' in (int32 (g' + c) :: ks, gf)
  end.

(** Number of positions [i > 0] with [cs[i] < cs[i-1]]. *)
Fixpoint drops (cs : list Z) : Z :=
  match cs with
  | x :: ((y :: _) as cs') => (if y <? x then 1 else 0) + drops cs'
  | _ => 0
  end.

(** True tick counts that are non-decreasing with steps below [WRAP]. *)
Fixpoint gaps_ok (ks : list Z) : bool :=
  match ks with
  | x :: ((y :: _) as ks') => (x <=? y) && (y <? x + WRAP) && gaps_ok ks'
  | _ => true
  end.

(** The values returned by the successive [_get_samples] calls of
    [process_capture]. *)
Fixpoint returned (st : DigilentDDiscovery) (reads : list (list Z))
  : list (option (list Z * list Qc)) :=
  match reads with
  | [] => []
  | d :: ds => snd (get_samples st d) :: returned (process_read st d) ds
  end.

End Decoder.

(** ** [DigilentDDiscovery] (martel_printer_test_library), the sibling
    decoder with a lock-based global counter *)

Module SiblingDecoder.

Record DigilentDDiscovery := mkSib {
  global_counter : Z;
  global_counter_lock : bool;
  samples : list (list Z);
  timestamps : list (list Qc)
}.

Definition fresh : DigilentDDiscovery :=
  {| global_counter := 0; global_counter_lock := false; samples := []; timestamps := [] |}.

(** The loop over [counter] in [_get_samples]: [_global_counter] grows by
    [np.iinfo(uint8).max] (255) at a value below 128 seen while unlocked;
    [counter[i] += self._global_counter] wraps as a [uint32]. Returns the
    time indices, the new [_global_counter] and [_global_counter_lock]. *)
Fixpoint convert (g : Z) (lock : bool) (counter : list Z) : list Z * Z * bool :=
  match counter with
  | [] => ([], g, lock)
  | c :: cs =>
      let '(g1, lock1) :=
        if (128 <=? c) && lock then (g, false)
        else if (c <? 128) && negb lock then (g + 255, true)
        else (g, lock) in
      let '(vs, g2, lock2) := convert g1 lock1 cs in
      ((c + g1) mod 2 ^ 32 :: vs, g2, lock2)
  end.

(** [_get_samples] on the bytes returned by [statusData]. *)
Definition get_samples (st : DigilentDDiscovery) (data : list Z)
  : DigilentDDiscovery * option (list Z * list Qc) :=
  match data with
  | [] => (st, None)
  | _ =>
    let smp := Decoder.evens data in
    let counter := Decoder.odds data in
    let '(vs, g', lock') := convert (global_counter st) (global_counter_lock st) counter in
    let ts := map Decoder.tick_time vs in
    let st' := {| global_counter := g'; global_counter_lock := lock';
                  samples := samples st; timestamps := timestamps st |} in
    let last_sample := match List.rev (samples st) with
                       | b :: _ => Some (List.last b 0) | [] => None end in
    if Decoder.sibling_drops smp last_sample then (st', None) else (st', Some (smp, ts))
  end.

(** One read of [process_capture]: the result is stored when it is truthy. *)
Definition process_read (st : DigilentDDiscovery) (data : list Z) : DigilentDDiscovery :=
  match get_samples st data with
  | (st', Some (smp, ts)) =>
      {| global_counter := global_counter st'; global_counter_lock := global_counter_lock st';
         samples := samples st' ++ [smp]; timestamps := timestamps st' ++ [ts] |}
  | (st', None) => st'
  end.

(** [clear_data] *)
Definition clear_data (st : DigilentDDiscovery) : DigilentDDiscovery :=
  {| global_counter := 0; global_counter_lock := false; samples := []; timestamps := [] |}.

(** Reading aids (not part of the source). *)

(** The values returned by successive [_get_samples] calls. *)
Fixpoint returned (st : DigilentDDiscovery) (reads : list (list Z))
  : list (option (list Z * list Qc)) :=
  match reads with
  | [] => []
  | d :: ds => snd (get_samples st d) :: returned (process_read st d) ds
  end.

(** True tick counts that are non-decreasing and leave no half period of
    the counter (a [count7] edge) without a sample. *)
Fixpoint half_ok (ks : list Z) : bool :=
  match ks with
  | x :: ((y :: _) as ks') => (x <=? y) && (y / 128 <=? x / 128 + 1) && half_ok ks'
  | _ => true
  end.

(** The time index the sibling decoder gives to true tick [k] of a capture
    whose first tick is [k0]. *)
Definition sib_tick (k0 k : Z) : Z :=
  (k - k / 256 + (if k0 <? 128 then 255 else 0)) mod 2 ^ 32.

End SiblingDecoder.

(** ** [LTPD245Analyser] *)

Module Analyser.

Record LTPD245Analyser := mkAnalyser {
  analyser : Decoder.DigilentDDiscovery;
  emulator : option Emulator.PrintMechEmulator
}.

Definition fresh : LTPD245Analyser := {| analyser := Decoder.fresh; emulator := None |}.

(** Exceptions that leave [await_capture_completion]. *)
Inductive exn :=
| MechCaptureTimeout   (* re-raised [CaptureTimeout] *)
| ValueError           (* [np.concatenate([])], or [np.nditer] on no record *)
| IndexError.          (* [records[0]] of no record *)

(** [for record in np.nditer(records): self._emulator.update(record)] on the
    emulator [e] just stored in [self._emulator]. *)
Definition feed (dec : Decoder.DigilentDDiscovery) (e : Emulator.PrintMechEmulator)
  (records : list SampleRecord) : LTPD245Analyser * option exn :=
  match records with
  | [] => ({| analyser := dec; emulator := Some e |}, Some ValueError)
  | _ => ({| analyser := dec; emulator := Some (Emulator.run e records) |}, None)
  end.

(** [await_capture_completion] for a capture whose loop iterations are
    [reads]: the analyser afterwards and the exception raised, if any. *)
Definition await_capture_completion (a : LTPD245Analyser)
  (reads : list (Decoder.DwfState * list Z)) : LTPD245Analyser * option exn :=
  let '(dec, returned) := Decoder.process_capture (analyser a) reads in
  if negb returned then ({| analyser := dec; emulator := emulator a |}, Some MechCaptureTimeout)
  else
  match Decoder.get_data dec with
  | None => ({| analyser := dec; emulator := emulator a |}, Some ValueError)
  | Some records =>
      match emulator a with
      | None =>
          match records with
          | [] => ({| analyser := dec; emulator := None |}, Some IndexError)
          | r0 :: rest => feed dec (Emulator.init r0) rest
          end
      | Some e => feed dec e records
      end
  end.

(** [process_available_data] for one call of [take_avalable_data];
    [None] is the [IndexError] of [records[0]] on an empty result. *)
Definition process_available_data (a : LTPD245Analyser) (status : Decoder.DwfState)
  (data : list Z) : option LTPD245Analyser :=
  let '(dec, res) := Decoder.take_avalable_data (analyser a) status data in
  match res with
  | None => Some {| analyser := dec; emulator := emulator a |}
  | Some records =>
      match emulator a with
      | None =>
          match records with
          | [] => None
          | r0 :: rest => Some {| analyser := dec;
                                  emulator := Some (Emulator.run (Emulator.init r0) rest) |}
          end
      | Some e => Some {| analyser := dec; emulator := Some (Emulator.run e records) |}
      end
  end.

(** [clear] *)
Definition clear (a : LTPD245Analyser) : LTPD245Analyser :=
  {| analyser := Decoder.clear_data (analyser a); emulator := None |}.

Definition get_printout (a : LTPD245Analyser) : option (list (list Z)) :=
  match emulator a with
  | Some e => Some (fst (Emulator.get_printout e))
  | None => None
  end.

End Analyser.

(** ** Reading aids for the emulator statements (not part of the source) *)

Module Trace.
Import Emulator.

(** [update] over a list of records, keeping the [mech_event]s. *)
Fixpoint run_tr (s : PrintMechEmulator) (rs : list SampleRecord)
  : PrintMechEmulator * list mech_event :=
  match rs with
  | [] => (s, [])
  | r :: rs' => let '(s1, e1) := update_tr s r in
                let '(s2, e2) := run_tr s1 rs' in (s2, e1 ++ e2)
  end.

(** Total burn time handed to [_burn_latch_register]. *)
Fixpoint drained (evs : list mech_event) : Qc :=
  match evs with
  | [] => 0
  | EvBurn _ _ t :: evs' => (t + drained evs')%Qc
  | EvAdvance :: evs' => drained evs'
  end.


(** Stepper phase as the spec defines it: [motor1 | (motor2 << 1)]. *)
Definition phase (r : SampleRecord) : Z :=
  Z.lor (Z.b2z (motor1 r)) (Z.shiftl (Z.b2z (motor2 r)) 1).

Fixpoint phase_changes (prev : SampleRecord) (rs : list SampleRecord) : Z :=
  match rs with
  | [] => 0
  | r :: rs' => (if phase r =? phase prev then 0 else 1) + phase_changes r rs'
  end.

(** Consecutive records differ in at most one motor bit. *)
Fixpoint one_bit_steps (prev : SampleRecord) (rs : list SampleRecord) : bool :=
  match rs with
  | [] => true
  | r :: rs' => (Bool.eqb (motor1 prev) (motor1 r) || Bool.eqb (motor2 prev) (motor2 r))
                && one_bit_steps r rs'
  end.


(** Number of between-rows burns ([_burn_latch_register(between_lines=True)]). *)
Fixpoint between_burns (evs : list mech_event) : Z :=
  match evs with
  | [] => 0
  | EvBurn true _ _ :: evs' => 1 + between_burns evs'
  | _ :: evs' => between_burns evs'
  end.

(** Every row of the paper is [DOTS_PER_LINE] cells wide. *)
Definition widths (p : list (list Qc)) : Prop :=
  Forall (fun row => length row = DOTS_PER_LINE) p.

Definition reachable_inv (s : PrintMechEmulator) : Prop :=
  (motor_steps s = 0 \/ motor_steps s = 2) /\ (2 <= length (paper_buffer s))%nat.

(** Data bits taken in on clock rising edges, from the clock level [prev]. *)
Fixpoint clocked (prev : bool) (rs : list SampleRecord) : list bool :=
  match rs with
  | [] => []
  | r :: rs' => (if clock r && negb prev then [data r] else []) ++ clocked (clock r) rs'
  end.

(** The last [n] entries of a list. *)
Definition lastn {A} (n : nat) (l : list A) : list A := skipn (length l - n) l.



End Trace.

(** ** Reading aid relating the two emulators (not part of the source) *)

Module Agree.

(** The sibling state holding the registers, paper, burn time and motor
    steps of an emulator state, with last input [li]. *)
Definition to_sib (e : Emulator.PrintMechEmulator) (li : Csv.MechInput) : MechState.PrintMechState :=
  {| MechState.last_input := li;
     MechState.shift_register := Emulator.shift_register e;
     MechState.latch_register := Emulator.latch_register e;
     MechState.paper := Emulator.paper_buffer e;
     MechState.burn_time := Emulator.burn_time e;
     MechState.motor_steps := Emulator.motor_steps e |}.

(** The stages of [PrintMechState.update], one per [if] of its body. *)
Definition sib_dst (s : MechState.PrintMechState) (i : Csv.MechInput) :=
  let li := MechState.last_input s in
  {| MechState.last_input := li; MechState.shift_register := MechState.shift_register s;
     MechState.latch_register := MechState.latch_register s; MechState.paper := MechState.paper s;
     MechState.burn_time := if Csv.mi_dst li =? 1
                            then (MechState.burn_time s + (Csv.mi_timestamp i - Csv.mi_timestamp li))%Qc
                            else MechState.burn_time s;
     MechState.motor_steps := MechState.motor_steps s |}.

Definition sib_latch (li i : Csv.MechInput) (s1 : MechState.PrintMechState) :=
  if (Csv.mi_latch li =? 1) && (Csv.mi_latch i =? 0) then
    let s' := MechState.burn_latch_register false s1 in
    {| MechState.last_input := li; MechState.shift_register := MechState.shift_register s';
       MechState.latch_register := MechState.shift_register s'; MechState.paper := MechState.paper s';
       MechState.burn_time := MechState.burn_time s'; MechState.motor_steps := MechState.motor_steps s' |}
  else s1.

Definition sib_clock (li i : Csv.MechInput) (s2 : MechState.PrintMechState) :=
  if (Csv.spi_clock i =? 1) && (Csv.spi_clock li =? 0) then
    {| MechState.last_input := li;
       MechState.shift_register := shift_in (MechState.shift_register s2) (Csv.spi_data i =? 1);
       MechState.latch_register := MechState.latch_register s2; MechState.paper := MechState.paper s2;
       MechState.burn_time := MechState.burn_time s2; MechState.motor_steps := MechState.motor_steps s2 |}
  else s2.

Definition sib_motor (li i : Csv.MechInput) (s3 : MechState.PrintMechState) :=
  if negb (Csv.motor_state i =? Csv.motor_state li) then
    let s' := MechState.set_motor s3 (MechState.motor_steps s3 + 2) (MechState.paper s3) in
    if MechState.motor_steps s' =? 2 then MechState.burn_latch_register true s'
    else if 4 <=? MechState.motor_steps s' then
      let s'' := MechState.burn_latch_register false s' in
      MechState.set_motor s'' 0 (MechState.paper s'' ++ [zero_row])
    else s'
  else s3.

Definition sib_commit (i : Csv.MechInput) (s4 : MechState.PrintMechState) :=
  {| MechState.last_input := i; MechState.shift_register := MechState.shift_register s4;
     MechState.latch_register := MechState.latch_register s4; MechState.paper := MechState.paper s4;
     MechState.burn_time := MechState.burn_time s4; MechState.motor_steps := MechState.motor_steps s4 |}.

End Agree.

(** ** Concrete captures used in the statements below *)

Module Scenario.

(** A record at [n] ticks of 0.1 ms. *)
Definition rc (n : Z) c d ds l m1 m2 : SampleRecord :=
  mkRecord (Q2Qc (n # 10000)) c d ds l m1 m2.

(** Spec scenario 1: a one clocked into column 383, latched, DST on for 4 ms. *)
Definition single_dot_first : SampleRecord := rc 0 false false false true false false.
Definition single_dot_rest : list SampleRecord :=
  [rc 1 true true false true false false; rc 2 false true false true false false;
   rc 3 false true false false false false; rc 4 false true true false false false;
   rc 44 false true false false false false].

(** Device reads: three samples stepping the motor twice. *)
Definition read_a : list Z := Decoder.encode [(0, 1); (16, 2); (48, 3)].
Definition records_a : list SampleRecord :=
  [Decoder.unpack (Decoder.tick_time 1) 0; Decoder.unpack (Decoder.tick_time 2) 16;
   Decoder.unpack (Decoder.tick_time 3) 48].

(** A read of [n] samples [s], one every 200 ticks from tick [k]: nothing
    changes while the counter goes on. *)
Definition idle (s k : Z) (n : nat) : list Z :=
  Decoder.encode (map (fun i => (s, k + 200 * Z.of_nat i)) (seq 0 n)).

(** A first capture: [read_a], then a second of idle signals, after which
    the loop returns. *)
Definition capture_1 : list (Decoder.DwfState * list Z) :=
  [(Decoder.Triggered, read_a); (Decoder.Triggered, idle 48 4 53)].

(** A second capture: one sample with the motor back in phase 0, then idle. *)
Definition read_c : list Z := Decoder.encode [(0, 10500)].
Definition record_c : SampleRecord := Decoder.unpack (Decoder.tick_time 10500) 0.
Definition capture_2 : list (Decoder.DwfState * list Z) :=
  [(Decoder.Triggered, read_c); (Decoder.Triggered, idle 0 10700 52)].

(** Decoder state whose last stored sample is [0]. *)
Definition after_zero : Decoder.DigilentDDiscovery :=
  {| Decoder.global_counter := 0; Decoder.last_count := 9;
     Decoder.samples := [[0]]; Decoder.timestamps := [[Decoder.tick_time 9]] |}.

(** Spec scenario 2: phase 00, 01, 11, 10, 00. *)
Definition four_changes_first : SampleRecord := rc 0 false false false false false false.
Definition four_changes_rest : list SampleRecord :=
  [rc 100 false false false false true false; rc 200 false false false false true true;
   rc 300 false false false false false true; rc 400 false false false false false false].

End Scenario.

(** * Proofs *)

(** ** Float rounding in the rasteriser *)

Section Rounding.
Open Scope Q_scope.

Lemma pow2_pos e : 0 < pow2 e.
Proof.
  unfold pow2; destruct (0 <=? e) eqn:He.
  - apply Z.leb_le in He.
    change 0 with (inject_Z 0); rewrite <- Zlt_Qlt.
    apply Z.pow_pos_nonneg; lia.
  - reflexivity.
Qed.

Lemma round_half_even_nonneg x : 0 <= x -> (0 <= round_half_even x)%Z.
Proof.
  intros Hx; unfold round_half_even.
  assert (Hf : (0 <= Qfloor x)%Z)
    by (change 0%Z with (Qfloor 0); apply Qfloor_resp_le, Hx).
  destruct (_ ?= _); [destruct (Z.even _)|..]; lia.
Qed.

Lemma round_bin_nonneg prec emin q : 0 <= q -> 0 <= round_bin prec emin q.
Proof.
  intros Hq; unfold round_bin.
  destruct (q ?= 0) eqn:Hc.
  - apply Qle_refl.
  - rewrite <- Qlt_alt in Hc; exfalso; apply (Qlt_not_le _ _ Hc Hq).
  - unfold round_pos; apply Qmult_le_0_compat.
    + change 0 with (inject_Z 0); rewrite <- Zle_Qle.
      apply round_half_even_nonneg, Qmult_le_0_compat;
        [exact Hq | apply Qlt_le_weak, pow2_pos].
    + apply Qlt_le_weak, pow2_pos.
Qed.

(** The [uint8] cast does not wrap: a non-negative cell gives
    [max(0, 255 - ceil(fl32(fl32(T) * 25000)))]. *)
Lemma pixel_formula t :
  0 <= this t ->
  pixel t = Z.max 0 (255 - Qceiling (fl32 (fl32 (this t) * inject_Z 25000)))%Z.
Proof.
  intros Ht; unfold pixel, uint8_of.
  assert (Hc : (0 <= Qceiling (fl32 (fl32 (this t) * inject_Z 25000)))%Z).
  { change 0%Z with (Qceiling 0); apply Qceiling_resp_le, round_bin_nonneg.
    apply Qmult_le_0_compat; [apply round_bin_nonneg, Ht | discriminate]. }
  rewrite Z.max_comm, Z.mod_small; lia.
Qed.

End Rounding.

(** ** Rounding error of [round_bin] *)

Section FloatError.

Lemma pow2_spec e : (pow2 e == inject_Z 2 ^ e)%Q.
Proof.
  unfold pow2; destruct (Z.leb_spec 0 e).
  - apply Zpower_Qpower; lia.
  - replace e with (- (- e)) at 2 by lia.
    rewrite Qpower_opp, <- Zpower_Qpower by lia.
    assert (P : 0 < 2 ^ (- e)) by (apply Z.pow_pos_nonneg; lia).
    destruct (2 ^ (- e)) eqn:E; try lia.
    reflexivity.
Qed.

Lemma pow2_plus a b : (pow2 (a + b) == pow2 a * pow2 b)%Q.
Proof. rewrite !pow2_spec; apply Qpower_plus; discriminate. Qed.

Lemma pow2_nat k : 0 <= k -> (pow2 k == inject_Z (2 ^ k))%Q.
Proof. intros H; unfold pow2; rewrite (proj2 (Z.leb_le 0 k) H); reflexivity. Qed.

Lemma floor_log2_le q : (0 < q)%Q -> (pow2 (floor_log2 q) <= q)%Q.
Proof.
  intros Hq; unfold floor_log2.
  set (l := Z.log2 (Qnum q) - Z.log2 (Zpos (Qden q))).
  destruct (Qle_bool (pow2 l) q) eqn:E; [apply Qle_bool_iff; exact E|].
  destruct q as [n d]; cbn [Qnum Qden] in *.
  assert (Hn : 0 < n).
  { unfold Qlt in Hq; cbn in Hq; lia. }
  destruct (Z.log2_spec n Hn) as [N1 _].
  destruct (Z.log2_spec (Zpos d) ltac:(lia)) as [_ D2].
  set (a := Z.log2 n) in *; set (b := Z.log2 (Zpos d)) in *.
  assert (Ha : 0 <= a) by apply Z.log2_nonneg.
  assert (Hb : 0 <= b) by apply Z.log2_nonneg.
  assert (K : (pow2 (l - 1) * inject_Z (2 ^ Z.succ b) == inject_Z (2 ^ a))%Q).
  { rewrite <- !pow2_nat by lia. rewrite <- pow2_plus.
    replace (l - 1 + Z.succ b) with a by (unfold l, a, b; lia); reflexivity. }
  assert (P := pow2_pos (l - 1)).
  rewrite Qmake_Qdiv.
  apply Qle_shift_div_l; [unfold Qlt; cbn; lia|].
  apply Qle_trans with (pow2 (l - 1) * inject_Z (2 ^ Z.succ b))%Q.
  - apply Qmult_le_l; [exact P|]. rewrite <- Zle_Qle; lia.
  - rewrite K, <- Zle_Qle; exact N1.
Qed.

Lemma round_half_even_err x : (Qabs (inject_Z (round_half_even x) - x) <= 1 # 2)%Q.
Proof.
  unfold round_half_even.
  pose proof (Qfloor_le x) as F1. pose proof (Qlt_floor x) as F2.
  set (f := Qfloor x) in *.
  rewrite inject_Z_plus in F2.
  destruct (Qcompare (x - inject_Z f) (1 # 2)) eqn:C.
  - apply Qeq_alt in C.
    destruct (Z.even f); [|rewrite inject_Z_plus];
      apply Qabs_case; intros _; change (inject_Z 1) with 1%Q in *; lra.
  - apply Qlt_alt in C. apply Qabs_case; intros _; lra.
  - apply Qgt_alt in C. rewrite inject_Z_plus. apply Qabs_case; intros _; change (inject_Z 1) with 1%Q in *; lra.
Qed.

Lemma pow2_half e : (pow2 (e - 1) == (1 # 2) * pow2 e)%Q.
Proof.
  replace (e - 1) with (e + -1) by lia. rewrite pow2_plus.
  change (pow2 (-1)) with (1 # 2)%Q. ring.
Qed.

Lemma round_pos_err prec emin q : (0 < q)%Q ->
  (Qabs (round_pos prec emin q - q) <= q * pow2 (- prec) + pow2 (emin - 1))%Q.
Proof.
  intros Hq; unfold round_pos.
  set (L := floor_log2 q).
  set (e := Z.max emin (L - (prec - 1))).
  set (y := (q * pow2 (- e))%Q).
  assert (Y : (q == y * pow2 e)%Q).
  { unfold y. rewrite <- Qmult_assoc, <- pow2_plus.
    replace (- e + e) with 0 by lia. change (pow2 0) with 1%Q. ring. }
  assert (D : (inject_Z (round_half_even y) * pow2 e - q
               == (inject_Z (round_half_even y) - y) * pow2 e)%Q).
  { rewrite Y at 1. ring. }
  rewrite D, Qabs_Qmult.
  assert (P := pow2_pos e).
  rewrite (Qabs_pos (pow2 e)) by lra.
  assert (R := round_half_even_err y).
  apply Qle_trans with ((1 # 2) * pow2 e)%Q.
  { apply Qmult_le_r; [exact P|exact R]. }
  rewrite <- pow2_half.
  assert (P1 := pow2_pos (emin - 1)).
  assert (P2 := pow2_pos (- prec)).
  assert (Q0 : (0 <= q * pow2 (- prec))%Q).
  { apply Qmult_le_0_compat; lra. }
  destruct (Z.max_spec emin (L - (prec - 1))) as [[_ E] | [_ E]];
    fold e in E; rewrite E.
  - replace (L - (prec - 1) - 1) with (L + - prec) by lia.
    rewrite pow2_plus.
    assert (FL := floor_log2_le q Hq). fold L in FL.
    assert (pow2 L * pow2 (- prec) <= q * pow2 (- prec))%Q.
    { apply Qmult_le_r; [exact P2|exact FL]. }
    lra.
  - lra.
Qed.

Lemma round_bin_err prec emin q :
  (Qabs (round_bin prec emin q - q) <= Qabs q * pow2 (- prec) + pow2 (emin - 1))%Q.
Proof.
  assert (P1 := pow2_pos (- prec)); assert (P2 := pow2_pos (emin - 1)).
  unfold round_bin; destruct (q ?= 0)%Q eqn:C.
  - apply Qeq_alt in C. rewrite C. 
    assert (Qabs 0 * pow2 (- prec) == 0)%Q as -> by reflexivity.
    change (Qabs (0 - 0)) with 0%Q. lra.
  - apply Qlt_alt in C.
    assert (N : (0 < - q)%Q) by lra.
    assert (R := round_pos_err prec emin (- q) N).
    rewrite (Qabs_neg q) by lra.
    setoid_replace (- round_pos prec emin (- q) - q)%Q
      with (- (round_pos prec emin (- q) - - q))%Q by ring.
    rewrite Qabs_opp; exact R.
  - apply Qgt_alt in C.
    rewrite (Qabs_pos q) by lra. exact (round_pos_err prec emin q C).
Qed.

End FloatError.

(** ** Counter reconstruction *)

Section CounterReconstruction.
Import Decoder.

Lemma split_runs_head x l : exists r rest, split_runs (x :: l) = (x :: r) :: rest.
Proof.
  revert x; induction l as [|y l IH]; intros x.
  - exists [], []; reflexivity.
  - destruct (IH y) as [r [rest Hr]].
    cbn [split_runs]; cbn [split_runs] in Hr; rewrite Hr.
    destruct (y <? x); eauto.
Qed.

Lemma shift_runs_two g r1 r2 rs :
  shift_runs g (r1 :: r2 :: rs) =
  let '(rs', g') := shift_runs (g + WRAP) (r2 :: rs) in (map (fun c => int32 (g + c)) r1 :: rs', g').
Proof. reflexivity. Qed.

Lemma shift_runs_cons g x run rest :
  shift_runs g ((x :: run) :: rest) =
  (match fst (shift_runs g (run :: rest)) with
   | r :: rs => (int32 (g + x) :: r) :: rs
   | [] => []
   end, snd (shift_runs g (run :: rest))).
Proof.
  destruct rest as [|r2 rs]; [reflexivity|].
  rewrite !shift_runs_two; destruct (shift_runs (g + WRAP) (r2 :: rs)); reflexivity.
Qed.

Lemma shift_split_scan cs : forall c g,
  concat (fst (shift_runs g (split_runs (c :: cs)))) = int32 (g + c) :: fst (scan g c cs)
  /\ snd (shift_runs g (split_runs (c :: cs))) = snd (scan g c cs).
Proof.
  induction cs as [|y cs IH]; intros c g; [split; reflexivity|].
  destruct (split_runs_head y cs) as [r [rest Hr]].
  change (split_runs (c :: y :: cs)) with
    (match split_runs (y :: cs) with
     | (y' :: r') :: rest' => if y' <? c then [c] :: (y' :: r') :: rest'
                              else (c :: y' :: r') :: rest'
     | [] :: rest' => [c] :: rest'
     | [] => [[c]]
     end).
  rewrite Hr.
  cbn [scan].
  destruct (y <? c) eqn:Hyc.
  - destruct (IH y (g + WRAP)) as [H1 H2]; rewrite Hr in H1, H2.
    rewrite shift_runs_two.
    destruct (shift_runs (g + WRAP) ((y :: r) :: rest)) as [a gf].
    destruct (scan (g + WRAP) y cs) as [ks gk].
    simpl in *; split; [rewrite H1; reflexivity | exact H2].
  - destruct (IH y g) as [H1 H2]; rewrite Hr in H1, H2.
    rewrite shift_runs_cons.
    destruct (shift_runs g ((y :: r) :: rest)) as [a gf] eqn:E.
    destruct (scan g y cs) as [ks gk].
    simpl in *; split; [|exact H2].
    destruct a as [|r0 rs]; [discriminate|].
    simpl in H1 |- *. inversion H1; reflexivity.
Qed.

Lemma reconstruct_scan g last c cs :
  reconstruct g last (c :: cs) =
  (fst (scan g last (c :: cs)), snd (scan g last (c :: cs)), List.last (c :: cs) 0).
Proof.
  unfold reconstruct; cbn [hd scan].
  set (g1 := if c <? last then g + WRAP else g).
  destruct (shift_split_scan cs c g1) as [H1 H2].
  destruct (shift_runs g1 (split_runs (c :: cs))) as [runs g2].
  destruct (scan g1 c cs) as [ks gf].
  simpl in *; subst; rewrite H1; reflexivity.
Qed.

Lemma scan_global g prev cs :
  snd (scan g prev cs) = g + WRAP * drops (prev :: cs).
Proof.
  revert g prev; induction cs as [|c cs IH]; intros g prev.
  - cbn; lia.
  - assert (D : drops (prev :: c :: cs) = (if c <? prev then 1 else 0) + drops (c :: cs))
      by (destruct cs; reflexivity).
    rewrite D; cbn [scan].
    destruct (scan (if c <? prev then g + WRAP else g) c cs) as [ks gf] eqn:E.
    pose proof (IH (if c <? prev then g + WRAP else g) c) as H; rewrite E in H.
    cbn [snd] in H |- *. unfold WRAP in *. destruct (c <? prev); lia.
Qed.

(** One wrap step: from the previous true tick [p] to the next one [k]. *)
Lemma wrap_step p k :
  0 <= p -> p <= k < p + WRAP ->
  (if k mod WRAP <? p mod WRAP then (p - p mod WRAP) + WRAP else p - p mod WRAP)
  = k - k mod WRAP.
Proof.
  unfold WRAP; intros Hp Hk.
  pose proof (Z.div_mod p 256 ltac:(lia)); pose proof (Z.mod_pos_bound p 256 ltac:(lia)).
  pose proof (Z.div_mod k 256 ltac:(lia)); pose proof (Z.mod_pos_bound k 256 ltac:(lia)).
  destruct (Z.ltb_spec (k mod 256) (p mod 256)); nia.
Qed.

Lemma last_default {A} (x : A) l a b : List.last (x :: l) a = List.last (x :: l) b.
Proof.
  revert x; induction l as [|y l IH]; intros x; [reflexivity|].
  exact (IH y).
Qed.

Lemma scan_ticks ks : forall p,
  0 <= p -> gaps_ok (p :: ks) = true ->
  scan (p - p mod WRAP) (p mod WRAP) (map (fun k => k mod WRAP) ks)
  = (map int32 ks, List.last ks p - List.last ks p mod WRAP).
Proof.
  induction ks as [|k ks IH]; intros p Hp Hg; [reflexivity|].
  cbn [gaps_ok] in Hg.
  destruct (Z.leb_spec p k); [|discriminate].
  destruct (Z.ltb_spec k (p + WRAP)); [|discriminate].
  cbn [map scan].
  rewrite (wrap_step p k) by lia.
  rewrite (IH k) by (lia || exact Hg).
  f_equal; [f_equal; f_equal; lia|].
  destruct ks as [|z ks]; [reflexivity|].
  change (List.last (k :: z :: ks) p) with (List.last (z :: ks) p).
  now rewrite (last_default z ks p k).
Qed.

Lemma odds_encode b : odds (encode b) = map (fun '(_, k) => k mod WRAP) b.
Proof. induction b as [|[s k] b IH]; simpl; [reflexivity|]; now rewrite IH. Qed.

Lemma evens_encode b : evens (encode b) = map fst b.
Proof. induction b as [|[s k] b IH]; simpl; [reflexivity|]; now rewrite IH. Qed.

Lemma last_map_mod (ks : list Z) p :
  List.last (map (fun k => k mod WRAP) ks) (p mod WRAP) = List.last ks p mod WRAP.
Proof.
  induction ks as [|k ks IH]; [reflexivity|].
  destruct ks as [|k' ks]; [reflexivity|]. exact IH.
Qed.

Lemma gaps_ok_cons a b l :
  gaps_ok (a :: b :: l) = (a <=? b) && (b <? a + WRAP) && gaps_ok (b :: l).
Proof. reflexivity. Qed.

Lemma gaps_ok_app p ks rest :
  gaps_ok (p :: ks ++ rest) = true ->
  gaps_ok (p :: ks) = true /\ gaps_ok (List.last ks p :: rest) = true.
Proof.
  revert p; induction ks as [|k ks IH]; intros p H; [split; [reflexivity | exact H]|].
  cbn [app] in H; rewrite gaps_ok_cons in H |- *.
  apply andb_prop in H as [H1 H2].
  destruct (IH k H2) as [H3 H4].
  rewrite H1, H3; split; [reflexivity|].
  destruct ks as [|z ks]; [exact H4|].
  change (List.last (k :: z :: ks) p) with (List.last (z :: ks) p).
  now rewrite (last_default z ks p k).
Qed.

Lemma gaps_ok_last p ks : gaps_ok (p :: ks) = true -> p <= List.last ks p.
Proof.
  revert p; induction ks as [|k ks IH]; intros p H; [cbn; lia|].
  rewrite gaps_ok_cons in H; apply andb_prop in H as [H1 H2]; apply andb_prop in H1 as [H1 _].
  apply Z.leb_le in H1; specialize (IH k H2).
  destruct ks as [|z ks]; [cbn; lia|].
  change (List.last (k :: z :: ks) p) with (List.last (z :: ks) p).
  rewrite (last_default z ks p k); lia.
Qed.

Lemma map_mod_snd (b : list (Z * Z)) :
  map (fun '(_, k) => k mod WRAP) b = map (fun k => k mod WRAP) (map snd b).
Proof. rewrite map_map; apply map_ext; intros [? ?]; reflexivity. Qed.

Lemma int32_small k : - 2 ^ 31 <= k < 2 ^ 31 -> int32 k = k.
Proof. intros H; unfold int32; rewrite Z.mod_small by lia; lia. Qed.

Lemma map_int32_small ks : Forall (fun k => 0 <= k < 2 ^ 31) ks -> map int32 ks = ks.
Proof.
  induction 1 as [|k ks Hk _ IH]; [reflexivity|].
  cbn [map]; rewrite int32_small by lia; f_equal; exact IH.
Qed.

Lemma gaps_ok_lower p ks : gaps_ok (p :: ks) = true -> Forall (fun k => p <= k) ks.
Proof.
  revert p; induction ks as [|k ks IH]; intros p H; constructor;
    rewrite gaps_ok_cons in H; apply andb_prop in H as [H1 H2];
    apply andb_prop in H1 as [H1 _]; apply Z.leb_le in H1; [exact H1|].
  apply (Forall_impl _ (fun x (Hx : k <= x) => Z.le_trans _ _ _ H1 Hx)), IH, H2.
Qed.

Lemma get_samples_encode st p b :
  b <> [] -> 0 <= p ->
  global_counter st = p - p mod WRAP -> last_count st = p mod WRAP ->
  gaps_ok (p :: map snd b) = true -> Forall (fun k => k < 2 ^ 31) (map snd b) ->
  let q := List.last (map snd b) p in
  global_counter (fst (get_samples st (encode b))) = q - q mod WRAP
  /\ last_count (fst (get_samples st (encode b))) = q mod WRAP
  /\ (forall smp ts, snd (get_samples st (encode b)) = Some (smp, ts) ->
        smp = map fst b /\ ts = map (fun '(_, k) => tick_time k) b).
Proof.
  intros Hb Hp Hg Hl Hgap Hbound q.
  assert (Hrange : Forall (fun k => 0 <= k < 2 ^ 31) (map snd b)).
  { apply Forall_forall; intros k Hk; split.
    - pose proof (proj1 (Forall_forall _ _) (gaps_ok_lower _ _ Hgap) k Hk) as Hk'; cbv beta in Hk'; lia.
    - exact (proj1 (Forall_forall _ _) Hbound k Hk). }
  destruct b as [|[s0 k0] b']; [contradiction|].
  remember (encode ((s0, k0) :: b')) as d eqn:Hd.
  destruct d as [|x d']; [discriminate|].
  unfold get_samples; cbv beta iota.
  rewrite Hd, odds_encode, evens_encode, map_mod_snd, Hg, Hl.
  cbn [map snd fst].
  rewrite reconstruct_scan.
  rewrite <- (map_cons (fun k => k mod WRAP) k0 (map snd b')).
  change (k0 :: map snd b') with (map snd ((s0, k0) :: b')).
  rewrite (scan_ticks _ p Hp Hgap), (map_int32_small _ Hrange).
  cbn [fst snd].
  assert (Hlast : List.last (map (fun k => k mod WRAP) (map snd ((s0, k0) :: b'))) 0 = q mod WRAP).
  { unfold q. cbn [map]. rewrite (last_default _ _ 0 (p mod WRAP)).
    exact (last_map_mod (k0 :: map snd b') p). }
  rewrite Hlast.
  assert (Hts : map tick_time (map snd ((s0, k0) :: b')) = map (fun '(_, k) => tick_time k) ((s0, k0) :: b')).
  { rewrite map_map; apply map_ext; intros [? ?]; reflexivity. }
  rewrite Hts.
  destruct (negb _ && _); cbn [fst snd global_counter last_count];
    (split; [reflexivity | split; [reflexivity |]]);
    intros smp' ts' Hs; inversion Hs; split; reflexivity.
Qed.

Lemma process_read_counters st d :
  global_counter (process_read st d) = global_counter (fst (get_samples st d))
  /\ last_count (process_read st d) = last_count (fst (get_samples st d)).
Proof.
  unfold process_read; destruct (get_samples st d) as [st' [[smp ts]|]]; split; reflexivity.
Qed.

Lemma returned_ticks batches : forall st p,
  0 <= p -> global_counter st = p - p mod WRAP -> last_count st = p mod WRAP ->
  Forall (fun b => b <> []) batches ->
  gaps_ok (p :: concat (map (map snd) batches)) = true ->
  Forall (fun k => k < 2 ^ 31) (concat (map (map snd) batches)) ->
  Forall2 (fun res b => forall smp ts, res = Some (smp, ts) ->
             smp = map fst b /\ ts = map (fun '(_, k) => tick_time k) b)
    (returned st (map encode batches)) batches.
Proof.
  induction batches as [|b bs IH]; intros st p Hp Hg Hl Hne Hgap Hbound; [constructor|].
  inversion Hne as [|? ? Hb Hbs]; subst.
  cbn [map concat] in Hgap, Hbound.
  apply Forall_app in Hbound as [Hb1 Hb2].
  destruct (gaps_ok_app p (map snd b) _ Hgap) as [Hg1 Hg2].
  destruct (get_samples_encode st p b Hb Hp Hg Hl Hg1 Hb1) as [G [L R]].
  destruct (process_read_counters st (encode b)) as [G' L'].
  cbn [map returned]; constructor; [exact R|].
  apply (IH _ (List.last (map snd b) p)); try assumption.
  - pose proof (gaps_ok_last p (map snd b) Hg1); lia.
  - rewrite G'; exact G.
  - rewrite L'; exact L.
Qed.

Lemma get_samples_counters st data c cs :
  odds data = c :: cs ->
  global_counter (fst (get_samples st data)) =
    global_counter st + WRAP * ((if c <? last_count st then 1 else 0) + drops (c :: cs))
  /\ last_count (fst (get_samples st data)) = List.last (c :: cs) 0.
Proof.
  intros Ho.
  destruct data as [|x d]; [discriminate|].
  unfold get_samples; cbv beta iota.
  rewrite Ho, reconstruct_scan.
  pose proof (scan_global (global_counter st) (last_count st) (c :: cs)) as Hs.
  destruct (scan (global_counter st) (last_count st) (c :: cs)) as [ks gf].
  cbn [fst snd] in Hs |- *.
  assert (D : drops (last_count st :: c :: cs) = (if c <? last_count st then 1 else 0) + drops (c :: cs))
    by (destruct cs; reflexivity).
  rewrite D in Hs.
  destruct (negb _ && _); cbn [fst global_counter last_count]; split; assumption || reflexivity.
Qed.

Lemma count_period_value : COUNT_PERIOD = 7378697629483821 # 73786976294838206464.
Proof. vm_compute; reflexivity. Qed.

Lemma tick_time_bounds k : 0 <= k ->
  (inject_Z k * COUNT_PERIOD * (1 - (1 # 9007199254740992)) - pow2 (-1075)
   <= this (tick_time k)
   <= inject_Z k * COUNT_PERIOD * (1 + (1 # 9007199254740992)) + pow2 (-1075))%Q.
Proof.
  intros Hk.
  assert (X : (0 <= inject_Z k * COUNT_PERIOD)%Q).
  { apply Qmult_le_0_compat; [change 0%Q with (inject_Z 0); rewrite <- Zle_Qle; exact Hk|].
    rewrite count_period_value; discriminate. }
  pose proof (round_bin_err 53 (-1074) (inject_Z k * COUNT_PERIOD)) as E.
  rewrite (Qabs_pos _ X) in E.
  change (-1074 - 1) with (-1075) in E.
  change (pow2 (- (53))) with (1 # 9007199254740992)%Q in E.
  apply Qabs_Qle_condition in E.
  unfold tick_time, Q2Qc; cbn [this]; rewrite Qred_correct.
  unfold fl64; split; lra.
Qed.

Lemma tick_time_lt k : 0 <= k < 2 ^ 31 -> (tick_time k < tick_time (k + 1))%Qc.
Proof.
  intros Hk.
  destruct (tick_time_bounds k ltac:(lia)) as [_ B1].
  destruct (tick_time_bounds (k + 1) ltac:(lia)) as [B2 _].
  unfold Qclt.
  rewrite inject_Z_plus in B2.
  rewrite count_period_value in B1, B2.
  assert (T : (0 <= pow2 (-1075) <= 1 # 1000000000000000000000000000000)%Q)
    by (split; [apply Qlt_le_weak, pow2_pos|apply Qle_bool_iff; vm_compute; reflexivity]).
  set (t := pow2 (-1075)) in *; clearbody t.
  assert (K : (0 <= inject_Z k <= inject_Z (2 ^ 31))%Q)
    by (split; [change 0%Q with (inject_Z 0)|]; rewrite <- Zle_Qle; lia).
  change (inject_Z (2 ^ 31)) with 2147483648%Q in K.
  change (inject_Z 1) with 1%Q in B2.
  lra.
Qed.

Lemma tick_time_close k : 0 <= k ->
  (Qabs (this (tick_time k) - inject_Z k * (1 # COUNT_FREQ))
   <= inject_Z k * (1 # COUNT_FREQ) * pow2 (-52))%Q.
Proof.
  intros Hk.
  destruct (tick_time_bounds k Hk) as [B1 B2].
  rewrite count_period_value in B1, B2.
  assert (T : (0 <= pow2 (-1075) <= 1 # 1000000000000000000000000000000)%Q)
    by (split; [apply Qlt_le_weak, pow2_pos|apply Qle_bool_iff; vm_compute; reflexivity]).
  set (t := pow2 (-1075)) in *; clearbody t.
  change (pow2 (-52)) with (1 # 4503599627370496)%Q.
  unfold COUNT_FREQ.
  apply Qabs_Qle_condition.
  destruct (Z.eq_dec k 0) as [->|Hne].
  - replace (this (tick_time 0)) with 0%Q by (vm_compute; reflexivity).
    change (inject_Z 0) with 0%Q. split; lra.
  - assert (K : (1 <= inject_Z k)%Q) by (change 1%Q with (inject_Z 1); rewrite <- Zle_Qle; lia).
    split; lra.
Qed.

End CounterReconstruction.

(** C2 (corrected): the global counter grows by exactly [256] at each wrap
    of the 8-bit counter, once between batches when the first counter value
    is below the last one of the previous batch and once at every decrease
    within a batch. For a device whose counter starts with the decoder, whose
    consecutive samples are less than 256 ticks apart (the counter MSB is in
    the trigger set) and whose tick counts stay below [2^31] (the range of
    the [int32] time index), every returned timestamp is [tick_time k] for
    the true tick count [k], i.e. [float64(k * float64(1/F))]; these are
    strictly increasing in [k] and within a relative [2^-52] of [k/F]. *)
Theorem counter_reconstruction :
  (forall st data c cs, Decoder.odds data = c :: cs ->
     Decoder.global_counter (fst (Decoder.get_samples st data)) =
       Decoder.global_counter st
       + Decoder.WRAP * ((if c <? Decoder.last_count st then 1 else 0) + Decoder.drops (c :: cs))
     /\ Decoder.last_count (fst (Decoder.get_samples st data)) = List.last (c :: cs) 0)
  /\ (forall batches : list (list (Z * Z)),
       Forall (fun b => b <> []) batches ->
       Decoder.gaps_ok (0 :: concat (map (map snd) batches)) = true ->
       Forall (fun k => k < 2 ^ 31) (concat (map (map snd) batches)) ->
       Forall2 (fun res b => forall smp ts, res = Some (smp, ts) ->
                  smp = map fst b /\ ts = map (fun '(_, k) => Decoder.tick_time k) b)
         (Decoder.returned Decoder.fresh (map Decoder.encode batches)) batches)
  /\ (forall k, 0 <= k < 2 ^ 31 ->
        (Decoder.tick_time k < Decoder.tick_time (k + 1))%Qc
        /\ (Qabs (this (Decoder.tick_time k) - inject_Z k * (1 # Decoder.COUNT_FREQ))
            <= inject_Z k * (1 # Decoder.COUNT_FREQ) * pow2 (-52))%Q).
Proof.
  split; [exact get_samples_counters|split].
  - intros batches Hne Hgap Hb.
    apply (returned_ticks batches Decoder.fresh 0); try reflexivity; assumption || lia.
  - intros k Hk; split; [apply tick_time_lt, Hk | apply tick_time_close; lia].
Qed.

(** Witness for C2: two reads across a wrap, ticks 254, 255 then 256, 257,
    and the tick pair 255, 256. *)
Lemma counter_reconstruction_witness :
  Forall2 (fun res b => forall smp ts, res = Some (smp, ts) ->
             smp = map fst b /\ ts = map (fun '(_, k) => Decoder.tick_time k) b)
    (Decoder.returned Decoder.fresh
       (map Decoder.encode [[(1, 254); (0, 255)]; [(1, 256); (0, 257)]]))
    [[(1, 254); (0, 255)]; [(1, 256); (0, 257)]]
  /\ (Decoder.tick_time 255 < Decoder.tick_time 256)%Qc.
Proof.
  split.
  - apply (proj1 (proj2 counter_reconstruction)).
    + repeat constructor; discriminate.
    + vm_compute; reflexivity.
    + repeat constructor.
  - apply (proj1 (proj2 (proj2 counter_reconstruction) 255 ltac:(lia))).
Defined.

(** Counterexample to C2: a read with ticks 255 and 256, across a wrap,
    returns two timestamps that differ by [28823037615171 / 2^58], not by
    [1/F]: the decoder computes [float64(k * float64(1/F))]. *)
Lemma wrap_step_not_period :
  Decoder.returned Decoder.fresh [Decoder.encode [(1, 255); (0, 256)]]
    = [Some ([1; 0], [Decoder.tick_time 255; Decoder.tick_time 256])]
  /\ (Decoder.tick_time 256 - Decoder.tick_time 255)%Qc = Q2Qc (28823037615171 # 288230376151711744)
  /\ (Decoder.tick_time 256 - Decoder.tick_time 255)%Qc <> Q2Qc (1 # Decoder.COUNT_FREQ).
Proof.
  split; [vm_compute; reflexivity|split].
  - apply Qc_is_canon; vm_compute; reflexivity.
  - intros H; apply (f_equal this) in H; vm_compute in H; discriminate.
Qed.

(** ** Redundancy filter *)

(** C4 (code bug): after a stored batch ending in [0], the batch with signals
    [0, 0, 1], whose only change is between its last two samples, is dropped,
    because the filter looks at [non_repeated[:-1]] of an array that already
    has one entry per adjacent pair; the sibling filter keeps it. *)
Theorem batch_with_final_change_dropped :
  snd (Decoder.get_samples Scenario.after_zero [0; 10; 0; 11; 1; 12]) = None
  /\ Decoder.adjacent_ne [0; 0; 1] = [false; true]
  /\ Decoder.sibling_drops [0; 0; 1] (Some 0) = false.
Proof. vm_compute; repeat split. Qed.

(** ** CSV round trip *)

Lemma read_export_row r :
  Csv.read_row (Csv.export_row r) =
  Some {| Csv.mi_timestamp := timestamp r; Csv.spi_clock := Z.b2z (clock r);
          Csv.spi_data := Z.b2z (data r);
          Csv.mi_latch := Z.b2z (dst r); Csv.mi_dst := Z.b2z (latch r);
          Csv.motor_state := Z.shiftl (Z.b2z (motor2 r)) 1 + Z.b2z (motor1 r) |}.
Proof. destruct r; reflexivity. Qed.

(** C3 (code bug): re-loading an exported CSV puts the DST column in the
    latch field and the Latch column in the dst field, so on spec scenario 1
    the re-loaded capture prints column 383 white where the in-memory
    records print it at level 155. *)
Theorem csv_reload_swaps_dst_latch :
  (forall r, exists m, Csv.read_row (Csv.export_row r) = Some m
     /\ Csv.mi_latch m = Z.b2z (dst r) /\ Csv.mi_dst m = Z.b2z (latch r))
  /\ exists m0 ms,
     Csv.read_mech_input
       (Csv.export_data (Scenario.single_dot_first :: Scenario.single_dot_rest))
       = Some (m0 :: ms)
     /\ MechState.get_printout (MechState.run (MechState.init m0) ms)
        <> MechState.get_printout
             (MechState.run (MechState.init (Csv.mech_input_of_record Scenario.single_dot_first))
                (map Csv.mech_input_of_record Scenario.single_dot_rest)).
Proof.
  split.
  - intros r; rewrite read_export_row; eexists; repeat split.
  - do 2 eexists; split; [vm_compute; reflexivity|].
    intros H.
    apply (f_equal (fun img => nth (MechState.border + 383) (nth MechState.border img []) 0)) in H.
    vm_compute in H; discriminate.
Qed.

(** ** Repeated capture processing *)

(** C8 (code bug): [await_capture_completion] feeds the emulator everything
    [get_data] returns, i.e. every sample stored since the last clear; a
    second capture re-applies the first capture's records to the existing
    emulator. The first capture (three samples stepping the motor twice,
    then idle for over a second) gives three rows; the second (one sample
    back in motor phase 0, then idle) adds no row when each record is applied
    once, but the emulator is given all four records and ends with five;
    the row counts are the same with the source's float operations
    ([EmulatorF]). *)
Theorem await_twice_reapplies_records :
  exists a1 a2,
    Analyser.await_capture_completion Analyser.fresh Scenario.capture_1 = (a1, None)
    /\ Analyser.await_capture_completion a1 Scenario.capture_2 = (a2, None)
    /\ Decoder.get_data (Analyser.analyser a2) = Some (Scenario.records_a ++ [Scenario.record_c])
    /\ Analyser.emulator a2 =
         Some (Emulator.run (Emulator.run (Emulator.init (hd Scenario.record_c Scenario.records_a))
                                          (tl Scenario.records_a))
                            (Scenario.records_a ++ [Scenario.record_c]))
    /\ option_map (@length _) (Analyser.get_printout a2) = Some 5%nat
    /\ length (fst (Emulator.get_printout
                     (Emulator.run (Emulator.init (hd Scenario.record_c Scenario.records_a))
                                   (tl Scenario.records_a ++ [Scenario.record_c])))) = 3%nat
    /\ length (fst (EmulatorF.get_printout
                     (EmulatorF.run (EmulatorF.run (Emulator.init (hd Scenario.record_c Scenario.records_a))
                                                   (tl Scenario.records_a))
                                    (Scenario.records_a ++ [Scenario.record_c])))) = 5%nat
    /\ length (fst (EmulatorF.get_printout
                     (EmulatorF.run (Emulator.init (hd Scenario.record_c Scenario.records_a))
                                    (tl Scenario.records_a ++ [Scenario.record_c])))) = 3%nat.
Proof.
  do 2 eexists; split; [vm_compute; reflexivity|].
  split; [vm_compute; reflexivity|].
  vm_compute; repeat split.
Qed.

(** ** Emulator frame lemmas *)

Section EmulatorFrame.
Import Emulator Trace.

Lemma update_nth_length {A} n (f : A -> A) l : length (update_nth n f l) = length l.
Proof. revert n; induction l as [|x l IH]; intros [|n]; simpl; auto. Qed.

Lemma update_tr_steps s r :
  update_tr s r =
  let '(s1, e1) := dst_step r s in
  let '(s2, e2) := latch_step r s1 in
  let '(s3, e3) := clock_step r s2 in
  let '(s4, e4) := motor_step r s3 in
  (commit r s4, e1 ++ e2 ++ e3 ++ e4 ++ []).
Proof.
  unfold update_tr, bind, ret.
  destruct (dst_step r s) as [s1 e1]; destruct (latch_step r s1) as [s2 e2];
  destruct (clock_step r s2) as [s3 e3]; destruct (motor_step r s3) as [s4 e4].
  reflexivity.
Qed.

Lemma update_eq s r :
  update s r = commit r (fst (motor_step r (fst (clock_step r (fst (latch_step r (fst (dst_step r s)))))))).
Proof.
  unfold update; rewrite update_tr_steps.
  destruct (dst_step r s) as [s1 e1]; cbn [fst]; destruct (latch_step r s1) as [s2 e2];
  cbn [fst]; destruct (clock_step r s2) as [s3 e3]; cbn [fst];
  destruct (motor_step r s3) as [s4 e4]; reflexivity.
Qed.

Lemma burn_fields b s :
  let s' := fst (burn_latch_register b s) in
  shift_register s' = shift_register s /\ latch_register s' = latch_register s
  /\ burn_time s' = 0%Qc /\ motor_steps s' = motor_steps s
  /\ last_motor_state s' = last_motor_state s
  /\ length (paper_buffer s') = length (paper_buffer s).
Proof.
  cbn; repeat split; try reflexivity.
  destruct b; rewrite ?update_nth_length; reflexivity.
Qed.

Lemma dst_step_fields r s :
  snd (dst_step r s) = []
  /\ fst (dst_step r s) =
     with_burn s (if last_dst s then (burn_time s + (timestamp r - last_timestamp s))%Qc
                  else burn_time s).
Proof.
  unfold dst_step; destruct (last_dst s); split; try reflexivity.
  destruct s; reflexivity.
Qed.

Lemma latch_step_fields r s :
  let s' := fst (latch_step r s) in
  motor_steps s' = motor_steps s /\ last_motor_state s' = last_motor_state s
  /\ length (paper_buffer s') = length (paper_buffer s)
  /\ shift_register s' = shift_register s.
Proof.
  unfold latch_step; destruct (last_latch s && negb (latch r)); [|repeat split].
  cbn -[burn_latch_register].
  destruct (burn_fields false s) as (H1 & H2 & H3 & H4 & H5 & H6).
  destruct (burn_latch_register false s) as [s1 e1]; cbn in *.
  repeat split; assumption.
Qed.

Lemma clock_step_fields r s :
  let s' := fst (clock_step r s) in
  snd (clock_step r s) = [] /\
  latch_register s' = latch_register s /\ burn_time s' = burn_time s
  /\ motor_steps s' = motor_steps s /\ last_motor_state s' = last_motor_state s
  /\ paper_buffer s' = paper_buffer s
  /\ shift_register s' = (if clock r && negb (last_clock s)
                           then shift_in (shift_register s) (data r) else shift_register s).
Proof.
  unfold clock_step; destruct (clock r && negb (last_clock s)); repeat split.
Qed.

Lemma motor_step_frame r s :
  let '(s', e) := motor_step r s in
  shift_register s' = shift_register s /\ latch_register s' = latch_register s
  /\ last_motor_state s' = last_motor_state s
  /\ (Trace.drained e + burn_time s')%Qc = burn_time s
  /\ (burn_time s = 0%Qc -> burn_time s' = 0%Qc).
Proof.
  unfold motor_step.
  destruct (negb (motor_state_of r =? last_motor_state s));
    [|cbn; rewrite Qcplus_0_l; repeat split; auto].
  cbn [motor_steps with_steps].
  destruct (motor_steps s + 2 =? 2).
  - cbn; rewrite Qcplus_0_r, Qcplus_0_r; repeat split; auto.
  - destruct (4 <=? motor_steps s + 2);
      cbn; rewrite ?Qcplus_0_r, ?Qcplus_0_l; repeat split; auto.
Qed.

Lemma motor_step_change r s :
  motor_state_of r <> last_motor_state s ->
  (motor_steps s = 0 ->
     let '(s', e) := motor_step r s in
     motor_steps s' = 2 /\ length (paper_buffer s') = length (paper_buffer s)
     /\ e = [EvBurn true (latch_register s) (burn_time s)])
  /\ (motor_steps s = 2 ->
     let '(s', e) := motor_step r s in
     motor_steps s' = 0 /\ length (paper_buffer s') = S (length (paper_buffer s))
     /\ e = [EvBurn false (latch_register s) (burn_time s); EvAdvance]).
Proof.
  intros Hne; unfold motor_step.
  replace (motor_state_of r =? last_motor_state s) with false
    by (symmetry; apply Z.eqb_neq; exact Hne).
  split; intros Hs; cbn [negb motor_steps with_steps]; rewrite Hs; cbn.
  - rewrite !update_nth_length; repeat split.
  - rewrite length_app, update_nth_length; cbn; repeat split; lia.
Qed.

Lemma motor_step_same r s :
  motor_state_of r = last_motor_state s -> motor_step r s = (s, []).
Proof.
  intros He; unfold motor_step; rewrite He, Z.eqb_refl; reflexivity.
Qed.

Lemma commit_fields r s :
  shift_register (commit r s) = shift_register s /\ latch_register (commit r s) = latch_register s
  /\ paper_buffer (commit r s) = paper_buffer s /\ burn_time (commit r s) = burn_time s
  /\ motor_steps (commit r s) = motor_steps s /\ last_motor_state (commit r s) = motor_state_of r
  /\ last_timestamp (commit r s) = timestamp r /\ last_clock (commit r s) = clock r
  /\ last_dst (commit r s) = dst r /\ last_latch (commit r s) = latch r.
Proof. repeat split. Qed.

(** The motor step sees the state as [update] received it, except for the
    burn time and the registers. *)
Lemma before_motor r s :
  let s3 := fst (clock_step r (fst (latch_step r (fst (dst_step r s))))) in
  motor_steps s3 = motor_steps s /\ last_motor_state s3 = last_motor_state s
  /\ length (paper_buffer s3) = length (paper_buffer s).
Proof.
  cbn zeta.
  destruct (dst_step_fields r s) as [_ Hd].
  destruct (latch_step_fields r (fst (dst_step r s))) as (L1 & L2 & L3 & _).
  destruct (clock_step_fields r (fst (latch_step r (fst (dst_step r s))))) as (_ & _ & _ & C4 & C5 & C6 & _).
  rewrite C4, C5, C6, L1, L2, L3, Hd; destruct s; repeat split.
Qed.

Lemma update_inv s r :
  reachable_inv s ->
  reachable_inv (update s r)
  /\ (length (paper_buffer s) <= length (paper_buffer (update s r)))%nat.
Proof.
  intros [Hm Hl].
  rewrite update_eq.
  destruct (before_motor r s) as (B1 & B2 & B3).
  set (s3 := fst (clock_step r (fst (latch_step r (fst (dst_step r s)))))) in *.
  unfold reachable_inv; cbn [commit paper_buffer motor_steps].
  destruct (Z.eq_dec (motor_state_of r) (last_motor_state s3)) as [He|Hne].
  - rewrite (motor_step_same r s3 He); cbn [fst]; rewrite B1, B3; repeat split; auto.
  - destruct (motor_step_change r s3 Hne) as [H0 H2].
    destruct Hm as [Hm|Hm]; rewrite <- B1 in Hm.
    + specialize (H0 Hm); destruct (motor_step r s3) as [s4 e4]; cbn [fst].
      destruct H0 as (X1 & X2 & _); rewrite X1, X2, B3; repeat split; auto.
    + specialize (H2 Hm); destruct (motor_step r s3) as [s4 e4]; cbn [fst].
      destruct H2 as (X1 & X2 & _); rewrite X1, X2, B3; repeat split; auto.
Qed.

Lemma run_inv rs : forall s,
  reachable_inv s -> reachable_inv (run s rs).
Proof.
  induction rs as [|r rs IH]; intros s Hs; [exact Hs|].
  apply IH, (update_inv s r Hs).
Qed.

Lemma row_add_zero row l : row_add row (map (fun b => bitQ b * 0)%Qc l) = row.
Proof.
  revert l; induction row as [|x row IH]; intros [|b l]; try reflexivity.
  cbn [map row_add]; rewrite Qcmult_0_r, Qcplus_0_r, IH; reflexivity.
Qed.

Lemma update_nth_id {A} n (f : A -> A) l : (forall x, f x = x) -> update_nth n f l = l.
Proof.
  intros Hf; revert n; induction l as [|x l IH]; intros [|n]; cbn; rewrite ?Hf, ?IH; reflexivity.
Qed.

(** A drain with nothing accumulated changes nothing. *)
Lemma burn_zero b s : burn_time s = 0%Qc -> fst (burn_latch_register b s) = s.
Proof.
  intros H0; unfold burn_latch_register; cbn [fst]; rewrite H0.
  rewrite !(update_nth_id _ (fun row => row_add row _)) by (intros; apply row_add_zero).
  destruct b; destruct s; cbn in *; subst; reflexivity.
Qed.

(** A record equal to the one just committed changes nothing. *)
Lemma update_same_record u b :
  last_timestamp u = timestamp b -> last_clock u = clock b -> last_dst u = dst b ->
  last_latch u = latch b -> last_motor_state u = motor_state_of b ->
  update u b = u.
Proof.
  intros Ht Hc Hd Hl Hm.
  rewrite update_eq.
  assert (E1 : fst (dst_step b u) = u).
  { unfold dst_step; destruct (last_dst u); [|reflexivity].
    cbn [fst ret]; rewrite Ht; unfold Qcminus; rewrite Qcplus_opp_r, Qcplus_0_r.
    destruct u; reflexivity. }
  rewrite E1.
  assert (E2 : latch_step b u = (u, [])).
  { unfold latch_step; rewrite Hl; destruct (latch b); reflexivity. }
  assert (E3 : clock_step b u = (u, [])).
  { unfold clock_step; rewrite Hc; destruct (clock b); reflexivity. }
  rewrite E2; cbn [fst]; rewrite E3; cbn [fst].
  rewrite (motor_step_same b u (eq_sym Hm)); cbn [fst].
  destruct u; cbn in *; subst; reflexivity.
Qed.

Lemma update_repeat t b : update (update t b) b = update t b.
Proof.
  apply update_same_record; rewrite update_eq; reflexivity.
Qed.

Lemma row_add_length row buf : length (row_add row buf) = length row.
Proof.
  revert buf; induction row as [|x row IH]; intros [|y buf]; cbn; auto.
Qed.

Lemma update_nth_Forall {A} (P : A -> Prop) n f l :
  (forall x, P x -> P (f x)) -> Forall P l -> Forall P (update_nth n f l).
Proof.
  intros Hf Hl; revert n; induction Hl as [|x l Hx Hl IH]; intros [|n]; cbn;
    constructor; auto.
Qed.

Ltac widths_tac :=
  unfold widths in *;
  repeat first
    [ assumption
    | apply Forall_app; split
    | apply update_nth_Forall; [intros ? ?; rewrite row_add_length; assumption|]
    | constructor
    | reflexivity ].

Lemma burn_widths b s :
  widths (paper_buffer s) -> widths (paper_buffer (fst (burn_latch_register b s))).
Proof. intros H; destruct b; cbn; widths_tac. Qed.

Lemma update_widths s r :
  widths (paper_buffer s) -> widths (paper_buffer (update s r)).
Proof.
  intros H; rewrite update_eq; cbn [commit paper_buffer].
  assert (H1 : widths (paper_buffer (fst (dst_step r s))))
    by (rewrite (proj2 (dst_step_fields r s)); exact H).
  assert (H2 : widths (paper_buffer (fst (latch_step r (fst (dst_step r s)))))).
  { unfold latch_step; destruct (_ && _); [|exact H1].
    cbn -[burn_latch_register].
    pose proof (burn_widths false _ H1) as Hb.
    destruct (burn_latch_register false _); exact Hb. }
  assert (H3 : widths (paper_buffer (fst (clock_step r (fst (latch_step r (fst (dst_step r s))))))))
    by (rewrite (proj1 (proj2 (proj2 (proj2 (proj2 (proj2 (clock_step_fields _ _)))))));
        exact H2).
  revert H3; generalize (fst (clock_step r (fst (latch_step r (fst (dst_step r s)))))).
  intros s3 H3; unfold motor_step.
  destruct (negb _); [|exact H3].
  destruct (_ =? 2); [cbn; widths_tac|].
  destruct (4 <=? _); cbn; widths_tac.
Qed.

Lemma run_widths rs : forall s,
  widths (paper_buffer s) -> widths (paper_buffer (run s rs)).
Proof.
  induction rs as [|r rs IH]; intros s Hs; [exact Hs|].
  apply IH, update_widths, Hs.
Qed.

Lemma get_printout_shape s :
  widths (paper_buffer s) ->
  length (fst (get_printout s)) = length (paper_buffer s)
  /\ Forall (fun row => length row = DOTS_PER_LINE) (fst (get_printout s)).
Proof.
  intros H; unfold get_printout, rasterise; cbn [fst].
  rewrite length_map; split.
  - exact (proj2 (proj2 (proj2 (proj2 (proj2 (burn_fields false s)))))).
  - apply Forall_map.
    apply (Forall_impl _ (fun row Hr => eq_trans (length_map pixel row) Hr)).
    exact (burn_widths false s H).
Qed.

Lemma latch_step_fall r s :
  last_latch s && negb (latch r) = true ->
  snd (latch_step r s) = [EvBurn false (latch_register s) (burn_time s)]
  /\ latch_register (fst (latch_step r s)) = shift_register s
  /\ shift_register (fst (latch_step r s)) = shift_register s
  /\ burn_time (fst (latch_step r s)) = 0%Qc.
Proof. intros H; unfold latch_step; rewrite H; cbn; repeat split. Qed.

Lemma latch_step_no_fall r s :
  last_latch s && negb (latch r) = false -> latch_step r s = (s, []).
Proof. intros H; unfold latch_step; rewrite H; reflexivity. Qed.

End EmulatorFrame.


(** Running over two sub-captures that share their boundary record gives the
    state of running over the whole capture once. *)
Lemma run_shared_boundary s xs b ys :
  Emulator.run (Emulator.run s (xs ++ [b])) (b :: ys) = Emulator.run s (xs ++ b :: ys).
Proof.
  unfold Emulator.run; rewrite !fold_left_app; cbn [fold_left].
  rewrite update_repeat; reflexivity.
Qed.

(** C5: two successive [get_printout] calls give the same image; the first
    leaves [burn_time] at 0 and the second changes no state. *)
Theorem get_printout_idempotent s :
  let '(img1, s1) := Emulator.get_printout s in
  let '(img2, s2) := Emulator.get_printout s1 in
  img1 = img2 /\ s2 = s1 /\ Emulator.burn_time s1 = 0%Qc.
Proof.
  unfold Emulator.get_printout.
  assert (H0 : Emulator.burn_time (fst (Emulator.burn_latch_register false s)) = 0%Qc)
    by reflexivity.
  rewrite (burn_zero false _ H0).
  repeat split; assumption.
Qed.

(** C9: from any state reached by the emulator, an update leaves
    [motor_steps] at 0 or 2, at least two rows in the paper buffer (so the
    active row [paper[-2]] exists), and never fewer rows than before. *)
Theorem emulator_invariants r0 rs r :
  let s := Emulator.run (Emulator.init r0) rs in
  let s' := Emulator.update s r in
  (Emulator.motor_steps s' = 0 \/ Emulator.motor_steps s' = 2)
  /\ (2 <= length (Emulator.paper_buffer s'))%nat
  /\ (length (Emulator.paper_buffer s) <= length (Emulator.paper_buffer s'))%nat.
Proof.
  cbn zeta.
  assert (H0 : Trace.reachable_inv (Emulator.init r0)) by (split; [left|]; cbn; auto).
  destruct (update_inv _ r (run_inv rs _ H0)) as [[Hm Hl] Hle].
  repeat split; assumption.
Qed.

(** ** Printout geometry and grey levels *)

(** C6: the main emulator's printout has one row per paper row and 384
    pixels per row, with no border, and the grey level of a non-negative
    cell is [max(0, 255 - ceil(T * 25000))] computed in float32 (the buffer's
    dtype); [T = 0] gives 255. A 4 ms burn is stored as the float32 nearest
    0.004, which is slightly above it, and prints as 154, where the sibling's
    float64 buffer prints 155. *)
Theorem printout_float32_grey_level :
  (forall r0 rs,
     let s := Emulator.run (Emulator.init r0) rs in
     length (fst (Emulator.get_printout s)) = length (Emulator.paper_buffer s)
     /\ Forall (fun row => length row = DOTS_PER_LINE) (fst (Emulator.get_printout s)))
  /\ (forall t, (0 <= this t)%Q ->
        pixel t = Z.max 0 (255 - Qceiling (fl32 (fl32 (this t) * inject_Z 25000))))
  /\ pixel 0%Qc = 255
  /\ fl32 (4 # 1000) = (8589935 # 2147483648)%Q
  /\ pixel (Q2Qc (4 # 1000)) = 154
  /\ (let s := Emulator.run (Emulator.init Scenario.single_dot_first) Scenario.single_dot_rest in
      (this (nth 383 (nth 0 (Emulator.paper_buffer (snd (Emulator.get_printout s))) []) 0%Qc)
        == 4 # 1000)%Q
      /\ nth 383 (nth 0 (fst (Emulator.get_printout s)) []) 0 = 154)
  /\ nth (MechState.border + 383)
       (nth MechState.border
          (MechState.get_printout
             (MechState.run (MechState.init (Csv.mech_input_of_record Scenario.single_dot_first))
                (map Csv.mech_input_of_record Scenario.single_dot_rest))) []) 0 = 155.
Proof.
  split; [|split; [exact pixel_formula|]].
  - intros r0 rs; cbn zeta.
    apply get_printout_shape, run_widths.
    unfold Trace.widths; cbn; repeat constructor.
  - repeat split; vm_compute; reflexivity.
Qed.

(** ** Order of the checks within one update *)

(** C7: [update] is the composition, in this order, of the DST step (burn
    time grows by [now - last_timestamp] when the previous DST was high), the
    latch step, the clock step, the motor step and the commit of the current
    values. On a latch fall the first [_burn_latch_register] call drains the
    accumulated burn time with the old latch register, and the latch register
    after the update is the shift register as it was before the update, so a
    bit clocked in by the same record is not latched; the burn time is 0
    afterwards. The clock step shifts [data] in on a rising edge. *)
Theorem update_check_order s r :
  Emulator.update s r =
    Emulator.commit r (fst (Emulator.motor_step r (fst (Emulator.clock_step r
      (fst (Emulator.latch_step r (fst (Emulator.dst_step r s))))))))
  /\ Emulator.burn_time (fst (Emulator.dst_step r s)) =
       (if Emulator.last_dst s
        then Emulator.burn_time s + (timestamp r - Emulator.last_timestamp s)
        else Emulator.burn_time s)%Qc
  /\ (Emulator.last_latch s && negb (latch r) = true ->
        (exists evs, snd (Emulator.update_tr s r) =
           EvBurn false (Emulator.latch_register s)
             (Emulator.burn_time (fst (Emulator.dst_step r s))) :: evs)
        /\ Emulator.latch_register (Emulator.update s r) = Emulator.shift_register s
        /\ Emulator.burn_time (Emulator.update s r) = 0%Qc)
  /\ (Emulator.last_latch s && negb (latch r) = false ->
        Emulator.latch_register (Emulator.update s r) = Emulator.latch_register s)
  /\ Emulator.shift_register (Emulator.update s r) =
       (if clock r && negb (Emulator.last_clock s)
        then shift_in (Emulator.shift_register s) (data r)
        else Emulator.shift_register s)
  /\ Emulator.last_timestamp (Emulator.update s r) = timestamp r
  /\ Emulator.last_clock (Emulator.update s r) = clock r
  /\ Emulator.last_dst (Emulator.update s r) = dst r
  /\ Emulator.last_latch (Emulator.update s r) = latch r
  /\ Emulator.last_motor_state (Emulator.update s r) = Emulator.motor_state_of r.
Proof.
  split; [exact (update_eq s r)|].
  destruct (dst_step_fields r s) as [E1 S1].
  set (s1 := fst (Emulator.dst_step r s)) in *.
  assert (R1 : Emulator.shift_register s1 = Emulator.shift_register s
               /\ Emulator.latch_register s1 = Emulator.latch_register s
               /\ Emulator.last_latch s1 = Emulator.last_latch s
               /\ Emulator.last_clock s1 = Emulator.last_clock s)
    by (rewrite S1; repeat split).
  destruct R1 as (R1a & R1b & R1c & R1d).
  assert (U : Emulator.update s r =
    Emulator.commit r (fst (Emulator.motor_step r (fst (Emulator.clock_step r
      (fst (Emulator.latch_step r s1)))))))
    by apply update_eq.
  set (s2 := fst (Emulator.latch_step r s1)) in *.
  destruct (clock_step_fields r s2) as (_ & C2 & C3 & _ & _ & _ & C7).
  set (s3 := fst (Emulator.clock_step r s2)) in *.
  pose proof (motor_step_frame r s3) as M.
  destruct (Emulator.motor_step r s3) as [s4 e4] eqn:EM.
  destruct M as (M1 & M2 & _ & _ & M5).
  cbn [fst] in U.
  assert (K : Emulator.shift_register (Emulator.update s r) = Emulator.shift_register s3
              /\ Emulator.latch_register (Emulator.update s r) = Emulator.latch_register s2
              /\ Emulator.burn_time (Emulator.update s r) = Emulator.burn_time s4)
    by (rewrite U; cbn; repeat split; congruence).
  destruct K as (K1 & K2 & K3).
  split; [rewrite S1; destruct (Emulator.last_dst s); reflexivity|].
  split; [|split; [|split]].
  - intros Hf; rewrite <- R1c in Hf.
    destruct (latch_step_fall r s1 Hf) as (L1 & L2 & L3 & L4).
    split; [|split].
    + rewrite update_tr_steps.
      destruct (Emulator.dst_step r s) as [t1 ev1] eqn:ED; cbn [snd] in E1; subst ev1.
      change (fst (t1, @nil mech_event)) with t1 in s1; subst s1.
      destruct (Emulator.latch_step r t1) as [t2 ev2] eqn:EL.
      cbn [snd] in L1; subst ev2.
      destruct (Emulator.clock_step r t2) as [t3 ev3].
      destruct (Emulator.motor_step r t3) as [t4 ev4].
      rewrite R1b; eexists; reflexivity.
    + rewrite K2; unfold s2; rewrite L2, R1a; reflexivity.
    + rewrite K3; apply M5; rewrite C3; exact L4.
  - intros Hf; rewrite <- R1c in Hf.
    rewrite K2; unfold s2; rewrite (latch_step_no_fall r s1 Hf); exact R1b.
  - rewrite K1, C7.
    assert (Q : Emulator.shift_register s2 = Emulator.shift_register s
                /\ Emulator.last_clock s2 = Emulator.last_clock s).
    { unfold s2, Emulator.latch_step.
      destruct (Emulator.last_latch s1 && negb (latch r)); cbn; split; assumption. }
    destruct Q as [Q1 Q2]; rewrite Q1, Q2; reflexivity.
  - rewrite U; repeat split.
Qed.

(** A latch fall together with a rising clock edge: the clocked bit is not
    latched. *)
Lemma update_check_order_witness :
  (Emulator.last_latch (Emulator.init Scenario.single_dot_first) && negb (latch (Scenario.rc 1 true true false false false false)) = true
   /\ Emulator.latch_register
        (Emulator.update (Emulator.init Scenario.single_dot_first) (Scenario.rc 1 true true false false false false))
      = zero_register)
  /\ (Emulator.last_latch (Emulator.init Scenario.four_changes_first) && negb (latch (Scenario.rc 1 false false false false false false)) = false
   /\ Emulator.latch_register
        (Emulator.update (Emulator.init Scenario.four_changes_first) (Scenario.rc 1 false false false false false false))
      = zero_register).
Proof.
  split; split; [reflexivity| |reflexivity|].
  - exact (proj1 (proj2 ((proj1 (proj2 (proj2 (update_check_order
      (Emulator.init Scenario.single_dot_first) (Scenario.rc 1 true true false false false false)))))
      eq_refl))).
  - exact ((proj1 (proj2 (proj2 (proj2 (update_check_order
      (Emulator.init Scenario.four_changes_first) (Scenario.rc 1 false false false false false false))))))
      eq_refl).
Defined.

(** ** Row-advance cadence *)

Section Cadence.
Import Emulator Trace.

Ltac zlia := Z.div_mod_to_equations; lia.

Lemma one_bit_motor prev r :
  (Bool.eqb (motor1 prev) (motor1 r) || Bool.eqb (motor2 prev) (motor2 r)) = true ->
  (motor_state_of r =? motor_state_of prev) = (phase r =? phase prev).
Proof.
  unfold motor_state_of, phase.
  destruct (motor1 prev), (motor2 prev), (motor1 r), (motor2 r); cbn;
    first [reflexivity | discriminate].
Qed.

Lemma between_burns_app a b :
  between_burns (a ++ b) = between_burns a + between_burns b.
Proof.
  induction a as [|[[|] l t|] a IH]; cbn [between_burns app]; rewrite ?IH; lia.
Qed.

Lemma update_tr_split s r :
  let s1 := fst (dst_step r s) in
  let s2 := fst (latch_step r s1) in
  let s3 := fst (clock_step r s2) in
  update_tr s r =
    (commit r (fst (motor_step r s3)),
     snd (dst_step r s) ++ snd (latch_step r s1) ++ snd (clock_step r s2)
       ++ snd (motor_step r s3) ++ []).
Proof.
  cbn zeta; rewrite update_tr_steps.
  destruct (dst_step r s) as [s1 e1]; cbn [fst snd];
  destruct (latch_step r s1) as [s2 e2]; cbn [fst snd];
  destruct (clock_step r s2) as [s3 e3]; cbn [fst snd];
  destruct (motor_step r s3) as [s4 e4]; reflexivity.
Qed.

Lemma latch_step_no_between r s : between_burns (snd (latch_step r s)) = 0.
Proof. unfold latch_step; destruct (_ && _); reflexivity. Qed.

(** One update: a phase change adds two motor steps; from 0 steps it is the
    between-rows burn, from 2 steps the active-row burn and a new row. *)
Lemma update_cadence prev r s :
  (Bool.eqb (motor1 prev) (motor1 r) || Bool.eqb (motor2 prev) (motor2 r)) = true ->
  last_motor_state s = motor_state_of prev ->
  (motor_steps s = 0 \/ motor_steps s = 2) ->
  let d := if phase r =? phase prev then 0 else 1 in
  let c := motor_steps s / 2 in
  last_motor_state (fst (update_tr s r)) = motor_state_of r
  /\ motor_steps (fst (update_tr s r)) = 2 * ((c + d) mod 2)
  /\ Z.of_nat (length (paper_buffer (fst (update_tr s r))))
     = Z.of_nat (length (paper_buffer s)) + (c + d) / 2
  /\ between_burns (snd (update_tr s r)) = d * (1 - c).
Proof.
  intros Hb Hl Hm; cbn zeta.
  rewrite update_tr_split; cbn zeta; cbn [fst snd].
  rewrite (proj1 (dst_step_fields r s)).
  destruct (clock_step_fields r (fst (latch_step r (fst (dst_step r s))))) as (C1 & _).
  rewrite C1, !between_burns_app, latch_step_no_between.
  destruct (before_motor r s) as (B1 & B2 & B3).
  set (s3 := fst (clock_step r (fst (latch_step r (fst (dst_step r s)))))) in *.
  rewrite <- (one_bit_motor prev r Hb), <- Hl, <- B2.
  destruct (Z.eqb_spec (motor_state_of r) (last_motor_state s3)) as [He|Hne].
  - rewrite (motor_step_same r s3 He); cbn.
    rewrite B1, B3; destruct Hm as [Hm|Hm]; rewrite Hm; repeat split; zlia.
  - destruct (motor_step_change r s3 Hne) as [H0 H2].
    destruct Hm as [Hm|Hm]; rewrite <- B1 in Hm.
    + specialize (H0 Hm); destruct (motor_step r s3) as [s4 e4]; cbn [fst snd commit].
      destruct H0 as (X1 & X2 & X3); subst e4.
      cbn [commit last_motor_state motor_steps paper_buffer between_burns].
      rewrite X1, X2, B3, <- B1, Hm; repeat split; zlia.
    + specialize (H2 Hm); destruct (motor_step r s3) as [s4 e4]; cbn [fst snd commit].
      destruct H2 as (X1 & X2 & X3); subst e4.
      cbn [commit last_motor_state motor_steps paper_buffer between_burns].
      rewrite X1, X2, B3, <- B1, Hm, Nat2Z.inj_succ; repeat split; zlia.
Qed.

Lemma phase_changes_nonneg prev rs : 0 <= phase_changes prev rs.
Proof.
  revert prev; induction rs as [|r rs IH]; intros prev; cbn; [lia|].
  specialize (IH r); destruct (phase r =? phase prev); lia.
Qed.

Lemma run_cadence rs : forall prev s,
  one_bit_steps prev rs = true ->
  last_motor_state s = motor_state_of prev ->
  (motor_steps s = 0 \/ motor_steps s = 2) ->
  let c := motor_steps s / 2 in
  let n := phase_changes prev rs in
  motor_steps (fst (run_tr s rs)) = 2 * ((c + n) mod 2)
  /\ Z.of_nat (length (paper_buffer (fst (run_tr s rs))))
     = Z.of_nat (length (paper_buffer s)) + (c + n) / 2
  /\ between_burns (snd (run_tr s rs)) = (n + 1 - c) / 2.
Proof.
  induction rs as [|r rs IH]; intros prev s Hb Hl Hm; cbn zeta.
  - cbn; destruct Hm as [Hm|Hm]; rewrite Hm; repeat split; zlia.
  - cbn [one_bit_steps] in Hb; apply andb_prop in Hb; destruct Hb as [Hb1 Hb2].
    destruct (update_cadence prev r s Hb1 Hl Hm) as (U1 & U2 & U3 & U4).
    cbn zeta in U1, U2, U3, U4.
    cbn [run_tr phase_changes].
    destruct (update_tr s r) as [s1 e1] eqn:EU; cbn [fst snd] in U1, U2, U3, U4.
    assert (Hm1 : motor_steps s1 = 0 \/ motor_steps s1 = 2)
      by (rewrite U2; destruct Hm as [Hm|Hm]; rewrite Hm;
          destruct (phase r =? phase prev); zlia).
    destruct (IH r s1 Hb2 U1 Hm1) as (I1 & I2 & I3); cbn zeta in I1, I2, I3.
    destruct (run_tr s1 rs) as [s2 e2]; cbn [fst snd] in I1, I2, I3 |- *.
    pose proof (phase_changes_nonneg r rs).
    rewrite between_burns_app, I3, U4, I2, U3, I1, U2.
    set (n := phase_changes r rs) in *.
    destruct Hm as [Hm|Hm]; rewrite Hm;
      destruct (phase r =? phase prev); repeat split; zlia.
Qed.

Lemma run_tr_fst rs : forall s, fst (run_tr s rs) = run s rs.
Proof.
  induction rs as [|r rs IH]; intros s; [reflexivity|].
  cbn [run_tr]; unfold run; cbn [fold_left].
  destruct (update_tr s r) as [s1 e1] eqn:EU.
  assert (E : update s r = s1) by (unfold update; rewrite EU; reflexivity).
  specialize (IH s1); destruct (run_tr s1 rs) as [s2 e2]; cbn [fst] in IH |- *.
  rewrite E; exact IH.
Qed.

End Cadence.

(** Four phase changes of spec scenario 2 append two rows, not one; and a
    jump from phase 01 to phase 10 (both motor bits flip) leaves
    [motor1 + motor2] unchanged, so the emulator counts no motor step. *)
Lemma four_phase_changes_two_rows :
  Trace.phase_changes Scenario.four_changes_first Scenario.four_changes_rest = 4
  /\ length (Emulator.paper_buffer
       (Emulator.run (Emulator.init Scenario.four_changes_first) Scenario.four_changes_rest))
     = 4%nat
  /\ Trace.phase_changes (Scenario.rc 0 false false false false true false)
       [Scenario.rc 100 false false false false false true] = 1
  /\ Emulator.motor_steps
       (Emulator.run (Emulator.init (Scenario.rc 0 false false false false true false))
          [Scenario.rc 100 false false false false false true]) = 0.
Proof. repeat split; vm_compute; reflexivity. Qed.

(** C1 (amended): when consecutive records differ in at most one motor bit
    (the stepper's Gray-code sequence), each update that changes the phase
    [motor1 | (motor2 << 1)] adds two motor steps: from 0 steps it performs the
    between-rows burn into the active and pending rows, from 2 steps it burns
    the active row, appends a zero row and resets the count. Over [n] phase
    changes from a fresh emulator the paper has [2 + n / 2] rows (one new row
    per two changes), [motor_steps] is [2 * (n mod 2)], and [(n + 1) / 2]
    between-rows burns were made (the odd-numbered changes). *)
Theorem phase_change_cadence r0 rs :
  Trace.one_bit_steps r0 rs = true ->
  let n := Trace.phase_changes r0 rs in
  let '(s, evs) := Trace.run_tr (Emulator.init r0) rs in
  s = Emulator.run (Emulator.init r0) rs
  /\ Emulator.motor_steps s = 2 * (n mod 2)
  /\ Z.of_nat (length (Emulator.paper_buffer s)) = 2 + n / 2
  /\ Trace.between_burns evs = (n + 1) / 2
  /\ (forall prev r t,
        Trace.one_bit_steps prev [r] = true ->
        Emulator.last_motor_state t = Emulator.motor_state_of prev ->
        (Emulator.motor_steps t = 0 \/ Emulator.motor_steps t = 2) ->
        let d := if Trace.phase r =? Trace.phase prev then 0 else 1 in
        let c := Emulator.motor_steps t / 2 in
        Emulator.motor_steps (fst (Emulator.update_tr t r)) = 2 * ((c + d) mod 2)
        /\ Z.of_nat (length (Emulator.paper_buffer (fst (Emulator.update_tr t r))))
           = Z.of_nat (length (Emulator.paper_buffer t)) + (c + d) / 2
        /\ Trace.between_burns (snd (Emulator.update_tr t r)) = d * (1 - c)).
Proof.
  intros H; cbn zeta.
  destruct (run_cadence rs r0 (Emulator.init r0) H eq_refl (or_introl eq_refl))
    as (R1 & R2 & R3).
  cbn zeta in R1, R2, R3.
  pose proof (run_tr_fst rs (Emulator.init r0)) as F.
  destruct (Trace.run_tr (Emulator.init r0) rs) as [s evs]; cbn [fst snd] in *.
  rewrite R1, R2, R3; cbn [Emulator.init Emulator.motor_steps Emulator.paper_buffer length].
  change (0 / 2) with 0; rewrite !Z.add_0_l, Z.sub_0_r.
  split; [exact F|].
  split; [reflexivity|]. split; [reflexivity|]. split; [reflexivity|].
  intros prev r t Hb Hl Hm; cbn zeta.
  cbn [Trace.one_bit_steps] in Hb; rewrite andb_true_r in Hb.
  destruct (update_cadence prev r t Hb Hl Hm) as (_ & U2 & U3 & U4).
  repeat split; assumption.
Qed.

Lemma phase_change_cadence_witness :
  Trace.one_bit_steps Scenario.four_changes_first Scenario.four_changes_rest = true
  /\ Z.of_nat (length (Emulator.paper_buffer
       (Emulator.run (Emulator.init Scenario.four_changes_first) Scenario.four_changes_rest)))
     = 2 + Trace.phase_changes Scenario.four_changes_first Scenario.four_changes_rest / 2.
Proof.
  split; [reflexivity|].
  pose proof (phase_change_cadence Scenario.four_changes_first Scenario.four_changes_rest
                eq_refl) as H.
  cbn zeta in H.
  destruct (Trace.run_tr (Emulator.init Scenario.four_changes_first)
              Scenario.four_changes_rest) as [s evs].
  destruct H as (E & _ & H3 & _).
  rewrite <- E; exact H3.
Defined.


Section FloatBurn.
Import Emulator Trace.











End FloatBurn.



(** * Further properties of the code *)

Section ShiftRegister.
Import Emulator Trace.

Lemma shift_update s r :
  shift_register (update s r) =
    (if clock r && negb (last_clock s) then shift_in (shift_register s) (data r)
     else shift_register s)
  /\ last_clock (update s r) = clock r.
Proof.
  rewrite update_eq; split; [|reflexivity].
  cbn [commit shift_register].
  set (s3 := fst (clock_step r (fst (latch_step r (fst (dst_step r s)))))).
  assert (M : shift_register (fst (motor_step r s3)) = shift_register s3).
  { pose proof (motor_step_frame r s3) as F; destruct (motor_step r s3) as [s4 e4].
    exact (proj1 F). }
  rewrite M; unfold s3.
  rewrite (proj2 (proj2 (proj2 (proj2 (proj2 (proj2 (clock_step_fields _ _))))))).
  rewrite (proj2 (proj2 (proj2 (latch_step_fields _ _)))).
  assert (C : last_clock (fst (latch_step r (fst (dst_step r s)))) = last_clock s).
  { rewrite (proj2 (dst_step_fields r s)).
    unfold latch_step; destruct (_ && _); reflexivity. }
  rewrite C, (proj2 (dst_step_fields r s)); reflexivity.
Qed.

Lemma lastn_tl {A} n (l m : list A) :
  length l = n -> m <> [] -> lastn n (tl l ++ m) = lastn n (l ++ m).
Proof.
  intros Hl Hm; unfold lastn; rewrite !length_app.
  destruct l as [|x l]; cbn [tl length] in *; subst n; [reflexivity|].
  destruct m as [|y m]; [congruence|]; cbn [length].
  replace (S (length l) + S (length m) - S (length l))%nat
    with (S (length l + S (length m) - S (length l))) by lia.
  reflexivity.
Qed.

Lemma run_shift_register rs : forall s,
  length (shift_register s) = DOTS_PER_LINE ->
  shift_register (run s rs) = lastn DOTS_PER_LINE (shift_register s ++ clocked (last_clock s) rs)
  /\ length (shift_register (run s rs)) = DOTS_PER_LINE.
Proof.
  induction rs as [|r rs IH]; intros s Hs.
  - cbn [run fold_left clocked]; rewrite app_nil_r; unfold lastn; rewrite Hs, Nat.sub_diag.
    split; reflexivity.
  - destruct (shift_update s r) as [Hsh Hc].
    assert (Hl : length (shift_register (update s r)) = DOTS_PER_LINE).
    { rewrite Hsh; destruct (_ && _); [|exact Hs].
      unfold shift_in; rewrite length_app, length_tl, Hs; reflexivity. }
    destruct (IH (update s r) Hl) as [IH1 IH2].
    cbn [run fold_left clocked] in *; fold (run (update s r) rs).
    split; [|exact IH2].
    rewrite IH1, Hc, Hsh.
    destruct (clock r && negb (last_clock s)); [|reflexivity].
    unfold shift_in; rewrite <- app_assoc.
    apply lastn_tl; [exact Hs|discriminate].
Qed.
End ShiftRegister.

(** ** Extra properties: emulator *)

Section EmulatorExtra.
Import Emulator Trace.

(** Feeding every record twice in a row gives the same emulator state as
    feeding it once: a record equal to the one just committed is a no-op. *)
Theorem duplicated_records_ignored s rs :
  run s (flat_map (fun r => [r; r]) rs) = run s rs.
Proof.
  revert s; induction rs as [|r rs IH]; intros s; [reflexivity|].
  cbn [flat_map app run fold_left]; rewrite update_repeat; exact (IH (update s r)).
Qed.

(** The shift register always holds the last 384 data bits taken on a
    clock rising edge since the first record, preceded by the zeros it
    started with. *)
Theorem shift_register_last_bits r0 rs :
  shift_register (run (init r0) rs) = lastn DOTS_PER_LINE (zero_register ++ clocked (clock r0) rs).
Proof. exact (proj1 (run_shift_register rs (init r0) eq_refl)). Qed.

End EmulatorExtra.

(** ** Extra properties: live processing *)

Section LiveExtra.
Import Decoder.

Lemma get_samples_keeps_data st data :
  samples (fst (get_samples st data)) = samples st
  /\ timestamps (fst (get_samples st data)) = timestamps st.
Proof.
  unfold get_samples; destruct data as [|x data']; [split; reflexivity|].
  destruct (reconstruct _ _ _) as [[ks g'] l'].
  destruct (negb _ && _); split; reflexivity.
Qed.

Lemma take_keeps_data st status data :
  samples (fst (take_avalable_data st status data)) = samples st
  /\ timestamps (fst (take_avalable_data st status data)) = timestamps st
  /\ (status <> Triggered -> take_avalable_data st status data = (st, None)).
Proof.
  unfold take_avalable_data.
  destruct status; try (repeat split; reflexivity).
  destruct (get_samples_keeps_data st data) as [S T].
  destruct (get_samples st data) as [st' [[smp ts]|]]; cbn [fst] in *;
    (split; [exact S | split; [exact T | intros H; congruence]]).
Qed.

(** [process_available_data] never stores what it decodes: [get_data] (and
    so [export_data]) afterwards returns what it returned before; a status
    other than [Triggered] changes nothing; and an existing emulator is
    given exactly the records of this one read, once. *)
Theorem process_available_data_not_stored a status data a' :
  Analyser.process_available_data a status data = Some a' ->
  get_data (Analyser.analyser a') = get_data (Analyser.analyser a)
  /\ (status <> Triggered -> a' = a)
  /\ (forall e, Analyser.emulator a = Some e ->
        Analyser.emulator a' =
        Some (Emulator.run e (match snd (take_avalable_data (Analyser.analyser a) status data) with
                              | Some rs => rs | None => [] end))).
Proof.
  unfold Analyser.process_available_data.
  destruct (take_keeps_data (Analyser.analyser a) status data) as (S & T & N).
  destruct (take_avalable_data (Analyser.analyser a) status data) as [dec res] eqn:E.
  cbn [fst snd] in *.
  assert (G : get_data dec = get_data (Analyser.analyser a))
    by (unfold get_data; rewrite S, T; reflexivity).
  destruct res as [records|].
  - destruct (Analyser.emulator a) as [e|] eqn:Ee.
    + intros H; inversion H; subst; cbn [Analyser.analyser Analyser.emulator].
      split; [exact G|split].
      * intros Hs; specialize (N Hs); congruence.
      * intros e' He'; inversion He'; reflexivity.
    + destruct records as [|r0 rest]; [discriminate|].
      intros H; inversion H; subst; cbn [Analyser.analyser Analyser.emulator].
      split; [exact G|split]; [intros Hs; specialize (N Hs); congruence | discriminate].
  - intros H; inversion H; subst; cbn [Analyser.analyser Analyser.emulator].
    split; [exact G|split].
    + intros Hs; specialize (N Hs); inversion N; subst; destruct a; reflexivity.
    + intros e He; rewrite He; reflexivity.
Qed.

(** Witness: a triggered read of one new sample on an analyser whose
    emulator exists. *)
Lemma process_available_data_not_stored_witness :
  match Analyser.process_available_data
          {| Analyser.analyser := Scenario.after_zero;
             Analyser.emulator := Some (Emulator.init Scenario.single_dot_first) |}
          Triggered [1; 12] with
  | Some a' => get_data (Analyser.analyser a') = Some [unpack (tick_time 9) 0]
  | None => False
  end.
Proof.
  destruct (Analyser.process_available_data _ Triggered [1; 12]) as [a'|] eqn:E;
    [|vm_compute in E; discriminate].
  exact (proj1 (process_available_data_not_stored _ Triggered [1; 12] a' E)).
Defined.

End LiveExtra.

(** ** Extra properties: stored batches *)

Section BatchExtra.
Import Decoder.

Lemma evens_odds_length l :
  Nat.even (length l) = true -> length (evens l) = length (odds l).
Proof.
  intros H; remember (length l) as n eqn:Hn; revert l Hn H.
  induction n as [n IH] using lt_wf_ind; intros l Hn H.
  destruct l as [|x [|y l]]; cbn in *; subst; [reflexivity|discriminate|].
  f_equal; apply (IH (length l)); [lia|reflexivity|exact H].
Qed.

Lemma scan_length g prev cs : length (fst (scan g prev cs)) = length cs.
Proof.
  revert g prev; induction cs as [|c cs IH]; intros g prev; [reflexivity|].
  cbn [scan]; destruct (scan _ c cs) as [ks gf] eqn:E.
  cbn [fst length]; f_equal; rewrite <- (IH (if c <? prev then g + WRAP else g) c), E; reflexivity.
Qed.

Lemma reconstruct_length g last counter :
  length (fst (fst (reconstruct g last counter))) = length counter.
Proof.
  destruct counter as [|c cs]; [reflexivity|].
  rewrite reconstruct_scan; cbn [fst].
  destruct (scan g last (c :: cs)) as [ks gf] eqn:E.
  cbn [fst]; rewrite <- (scan_length g last (c :: cs)), E; reflexivity.
Qed.

Lemma get_samples_lengths st data smp ts :
  Nat.even (length data) = true ->
  snd (get_samples st data) = Some (smp, ts) -> length smp = length ts.
Proof.
  intros He; unfold get_samples; destruct data as [|x data']; [discriminate|].
  pose proof (reconstruct_length (global_counter st) (last_count st) (odds (x :: data'))) as L.
  destruct (reconstruct _ _ _) as [[ks g'] l'].
  cbn [fst] in L.
  destruct (negb _ && _); cbn [snd]; [discriminate|].
  intros H; inversion H; subst.
  rewrite length_map, L; exact (evens_odds_length (x :: data') He).
Qed.

Lemma capture_loop_balanced reads : forall st lt,
  Forall (fun rd => Nat.even (length (snd rd)) = true) reads ->
  Forall2 (fun b t => length b = length t) (samples st) (timestamps st) ->
  Forall2 (fun b t => length b = length t)
    (samples (fst (capture_loop st lt reads))) (timestamps (fst (capture_loop st lt reads))).
Proof.
  induction reads as [|[status data] ds IH]; intros st lt He Hb; [exact Hb|].
  inversion He as [|? ? Hd Hds]; subst; cbn [snd] in Hd.
  destruct status; cbn [capture_loop]; try (apply IH; assumption).
  pose proof (get_samples_lengths st data) as GL.
  destruct (get_samples_keeps_data st data) as [S T].
  destruct (get_samples st data) as [st' [[smp ts]|]] eqn:E; cbn [fst snd] in *.
  - apply IH; [exact Hds|]; cbn [store samples timestamps]; rewrite S, T.
    apply Forall2_app; [exact Hb|].
    constructor; [apply (GL smp ts Hd eq_refl)|constructor].
  - assert (Hb' : Forall2 (fun b t => length b = length t) (samples st') (timestamps st'))
      by (rewrite S, T; exact Hb).
    destruct lt as [lt|]; [|apply IH; assumption].
    destruct (Qle_bool 1 _); [exact Hb'|apply IH; assumption].
Qed.

Lemma concat_lengths {A B} (xs : list (list A)) (ys : list (list B)) :
  Forall2 (fun b t => length b = length t) xs ys -> length (concat xs) = length (concat ys).
Proof.
  induction 1 as [|x y xs ys Hxy _ IH]; [reflexivity|].
  cbn [concat]; rewrite !length_app, Hxy, IH; reflexivity.
Qed.

Lemma combine_unpack xs ts :
  length xs = length ts ->
  length (map (fun '(s, t) => unpack t s) (combine xs ts)) = length xs
  /\ map timestamp (map (fun '(s, t) => unpack t s) (combine xs ts)) = map f32 ts.
Proof.
  revert ts; induction xs as [|x xs IH]; intros [|t ts] H; cbn in H; try discriminate;
    [split; reflexivity|].
  destruct (IH ts ltac:(lia)) as [H1 H2]; cbn; rewrite H1, H2; split; reflexivity.
Qed.

(** For a capture of even-length reads, [get_data] gives exactly one record
    per stored sample, in order, each with the stored (float64) timestamp
    cast to float32: the [fromarrays] pairing drops or shifts nothing. *)
Theorem get_data_one_record_per_sample reads recs :
  Forall (fun rd => Nat.even (length (snd rd)) = true) reads ->
  get_data (fst (process_capture fresh reads)) = Some recs ->
  length recs = length (concat (samples (fst (process_capture fresh reads))))
  /\ map timestamp recs = map f32 (concat (timestamps (fst (process_capture fresh reads)))).
Proof.
  intros He Hg.
  pose proof (concat_lengths _ _ (capture_loop_balanced reads fresh None He (Forall2_nil _))) as L.
  unfold process_capture in *; unfold get_data in Hg.
  destruct (samples (fst (capture_loop fresh None reads))); [discriminate|].
  inversion Hg; subst; apply combine_unpack; exact L.
Qed.

Lemma get_data_one_record_per_sample_witness :
  Forall (fun rd => Nat.even (length (snd rd)) = true) Scenario.capture_1
  /\ get_data (fst (process_capture fresh Scenario.capture_1)) = Some Scenario.records_a
  /\ length Scenario.records_a = 3%nat.
Proof.
  assert (He : Forall (fun rd => Nat.even (length (snd rd)) = true) Scenario.capture_1)
    by (repeat constructor).
  assert (Hg : get_data (fst (process_capture fresh Scenario.capture_1)) = Some Scenario.records_a)
    by (vm_compute; reflexivity).
  split; [exact He|split; [exact Hg|]].
  rewrite (proj1 (get_data_one_record_per_sample _ _ He Hg)); vm_compute; reflexivity.
Defined.

End BatchExtra.

(** ** Extra properties: the sibling decoder's counter *)

Section SiblingCounter.
Import SiblingDecoder.

Lemma sib_step p k B :
  p <= k -> k / 128 <= p / 128 + 1 ->
  (if (128 <=? k mod 256) && (p mod 256 <? 128) then (255 * (p / 256) + B, false)
   else if (k mod 256 <? 128) && negb (p mod 256 <? 128) then (255 * (p / 256) + B + 255, true)
   else (255 * (p / 256) + B, p mod 256 <? 128))
  = (255 * (k / 256) + B, k mod 256 <? 128).
Proof.
  intros Hpk Hh.
  assert (Ep : p / 128 = 2 * (p / 256) + (p mod 256) / 128) by (Z.div_mod_to_equations; lia).
  assert (Ek : k / 128 = 2 * (k / 256) + (k mod 256) / 128) by (Z.div_mod_to_equations; lia).
  assert (Hm : p / 256 <= k / 256) by (apply Z.div_le_mono; lia).
  pose proof (Z.mod_pos_bound p 256 ltac:(lia)); pose proof (Z.mod_pos_bound k 256 ltac:(lia)).
  rewrite Ep, Ek in Hh.
  pose proof (Z.div_mod p 256 ltac:(lia)) as Xp; pose proof (Z.div_mod k 256 ltac:(lia)) as Xk.
  generalize dependent (p / 256); generalize dependent (k / 256); intros K Xk Hk P Xp Hm Hh.
  destruct (Z.ltb_spec (p mod 256) 128) as [Lp|Lp];
    [assert (Dp : (p mod 256) / 128 = 0) by (apply Z.div_small; lia)
    |assert (Dp : (p mod 256) / 128 = 1) by (Z.div_mod_to_equations; lia)];
  (destruct (Z.ltb_spec (k mod 256) 128) as [Lk|Lk];
    [assert (Dk : (k mod 256) / 128 = 0) by (apply Z.div_small; lia)
    |assert (Dk : (k mod 256) / 128 = 1) by (Z.div_mod_to_equations; lia)]);
  rewrite ?Dp, ?Dk in Hh;
  destruct (Z.leb_spec 128 (k mod 256)); cbn [andb negb].
  all: intros; try (exfalso; lia); f_equal; lia.
Qed.

Lemma convert_ticks ks : forall p B,
  half_ok (p :: ks) = true ->
  convert (255 * (p / 256) + B) (p mod 256 <? 128) (map (fun k => k mod 256) ks)
  = (map (fun k => (k - k / 256 + B) mod 2 ^ 32) ks,
     255 * (List.last ks p / 256) + B, List.last ks p mod 256 <? 128).
Proof.
  induction ks as [|k ks IH]; intros p B H; [reflexivity|].
  cbn [half_ok] in H.
  destruct (Z.leb_spec p k); [|discriminate].
  destruct (Z.leb_spec (k / 128) (p / 128 + 1)); [|discriminate].
  cbn [andb] in H.
  cbn [map convert].
  rewrite (sib_step p k B) by assumption.
  rewrite (IH k B H).
  f_equal; [f_equal; f_equal|].
  - f_equal; Z.div_mod_to_equations; lia.
  - destruct ks as [|z ks]; [reflexivity|].
    change (List.last (k :: z :: ks) p) with (List.last (z :: ks) p).
    now rewrite (last_default z ks p k).
  - destruct ks as [|z ks]; [reflexivity|].
    change (List.last (k :: z :: ks) p) with (List.last (z :: ks) p).
    now rewrite (last_default z ks p k).
Qed.

Lemma sib_get_samples_encode st p B b :
  b <> [] ->
  global_counter st = 255 * (p / 256) + B -> global_counter_lock st = (p mod 256 <? 128) ->
  half_ok (p :: map snd b) = true ->
  let q := List.last (map snd b) p in
  global_counter (fst (get_samples st (Decoder.encode b))) = 255 * (q / 256) + B
  /\ global_counter_lock (fst (get_samples st (Decoder.encode b))) = (q mod 256 <? 128)
  /\ (forall smp ts, snd (get_samples st (Decoder.encode b)) = Some (smp, ts) ->
        smp = map fst b
        /\ ts = map (fun '(_, k) => Decoder.tick_time ((k - k / 256 + B) mod 2 ^ 32)) b).
Proof.
  intros Hb Hg Hl Hh q.
  destruct b as [|[s0 k0] b']; [contradiction|].
  remember (Decoder.encode ((s0, k0) :: b')) as d eqn:Hd.
  destruct d as [|x d']; [discriminate|].
  unfold get_samples; cbv beta iota.
  rewrite Hd, odds_encode, evens_encode, map_mod_snd, Hg, Hl.
  unfold Decoder.WRAP.
  rewrite (convert_ticks _ p B Hh).
  assert (Hts : map Decoder.tick_time (map (fun k => (k - k / 256 + B) mod 2 ^ 32) (map snd ((s0, k0) :: b')))
                = map (fun '(_, k) => Decoder.tick_time ((k - k / 256 + B) mod 2 ^ 32)) ((s0, k0) :: b')).
  { rewrite !map_map; apply map_ext; intros [? ?]; reflexivity. }
  rewrite Hts.
  destruct (Decoder.sibling_drops _ _); cbn [fst snd global_counter global_counter_lock];
    (split; [reflexivity | split; [reflexivity |]]);
    intros smp' ts' Hs; inversion Hs; split; reflexivity.
Qed.

Lemma sib_process_read_counters st d :
  global_counter (process_read st d) = global_counter (fst (get_samples st d))
  /\ global_counter_lock (process_read st d) = global_counter_lock (fst (get_samples st d)).
Proof.
  unfold process_read; destruct (get_samples st d) as [st' [[smp ts]|]]; split; reflexivity.
Qed.

Lemma half_ok_cons a b l :
  half_ok (a :: b :: l) = (a <=? b) && (b / 128 <=? a / 128 + 1) && half_ok (b :: l).
Proof. reflexivity. Qed.

Lemma half_ok_app p ks rest :
  half_ok (p :: ks ++ rest) = true ->
  half_ok (p :: ks) = true /\ half_ok (List.last ks p :: rest) = true.
Proof.
  revert p; induction ks as [|k ks IH]; intros p H; [split; [reflexivity | exact H]|].
  cbn [app] in H; rewrite half_ok_cons in H |- *.
  apply andb_prop in H as [H1 H2].
  destruct (IH k H2) as [H3 H4].
  rewrite H1, H3; split; [reflexivity|].
  destruct ks as [|z ks]; [exact H4|].
  change (List.last (k :: z :: ks) p) with (List.last (z :: ks) p).
  now rewrite (last_default z ks p k).
Qed.

Lemma sib_returned_ticks batches : forall st p B,
  global_counter st = 255 * (p / 256) + B -> global_counter_lock st = (p mod 256 <? 128) ->
  Forall (fun b => b <> []) batches ->
  half_ok (p :: concat (map (map snd) batches)) = true ->
  Forall2 (fun res b => forall smp ts, res = Some (smp, ts) ->
             smp = map fst b
             /\ ts = map (fun '(_, k) => Decoder.tick_time ((k - k / 256 + B) mod 2 ^ 32)) b)
    (returned st (map Decoder.encode batches)) batches.
Proof.
  induction batches as [|b bs IH]; intros st p B Hg Hl Hne Hh; [constructor|].
  inversion Hne as [|? ? Hb Hbs]; subst.
  cbn [map concat] in Hh.
  destruct (half_ok_app p (map snd b) _ Hh) as [H1 H2].
  destruct (sib_get_samples_encode st p B b Hb Hg Hl H1) as [G [L R]].
  destruct (sib_process_read_counters st (Decoder.encode b)) as [G' L'].
  cbn [map returned]; constructor; [exact R|].
  apply (IH _ (List.last (map snd b) p) B); try assumption.
  - rewrite G'; exact G.
  - rewrite L'; exact L.
Qed.

End SiblingCounter.

(** ** Extra property: the sibling decoder's clock *)

(** The sibling decoder adds 255, not 256, per wrap of the 8-bit counter:
    for a capture from a fresh decoder whose true tick counts start below
    256, never decrease and leave no half period of the counter without a
    sample, every returned timestamp is [sib_tick k0 k / F] for the true tick
    [k], i.e. [k] minus one tick per completed wrap, plus 255 ticks when the
    first tick is below 128; so the tick after a wrap gets the same
    timestamp as the tick before it. *)
Theorem sibling_counter_drift batches k0 rest :
  Forall (fun b => b <> []) batches ->
  concat (map (map snd) batches) = k0 :: rest ->
  0 <= k0 < 256 -> SiblingDecoder.half_ok (k0 :: rest) = true ->
  Forall2 (fun res b => forall smp ts, res = Some (smp, ts) ->
             smp = map fst b
             /\ ts = map (fun '(_, k) => Decoder.tick_time (SiblingDecoder.sib_tick k0 k)) b)
    (SiblingDecoder.returned SiblingDecoder.fresh (map Decoder.encode batches)) batches
  /\ (forall k, k mod 256 = 255 ->
        SiblingDecoder.sib_tick k0 (k + 1) = SiblingDecoder.sib_tick k0 k).
Proof.
  intros Hne Hc Hk0 Hh; split.
  - set (B := if k0 <? 128 then 255 else 0).
    set (p := if k0 <? 128 then -1 else 128).
    apply (sib_returned_ticks batches SiblingDecoder.fresh p B); try assumption.
    + unfold p, B; destruct (k0 <? 128); reflexivity.
    + unfold p; destruct (Z.ltb_spec k0 128); reflexivity.
    + rewrite Hc, half_ok_cons, Hh, andb_true_r.
      unfold p; destruct (Z.ltb_spec k0 128) as [L|L].
      * replace (k0 / 128) with 0 by (symmetry; apply Z.div_small; lia).
        apply andb_true_intro; split; apply Z.leb_le; [lia|compute; discriminate].
      * replace (k0 / 128) with 1 by (Z.div_mod_to_equations; lia).
        apply andb_true_intro; split; apply Z.leb_le; [lia|compute; discriminate].
  - intros k Hk; unfold SiblingDecoder.sib_tick.
    replace ((k + 1) / 256) with (k / 256 + 1) by (Z.div_mod_to_equations; lia).
    f_equal; lia.
Qed.

(** Witness: ticks 250, 255 in one read and 256, 300 in the next. *)
Lemma sibling_counter_drift_witness :
  Forall2 (fun res b => forall smp ts, res = Some (smp, ts) ->
             smp = map fst b
             /\ ts = map (fun '(_, k) => Decoder.tick_time (SiblingDecoder.sib_tick 250 k)) b)
    (SiblingDecoder.returned SiblingDecoder.fresh
       (map Decoder.encode [[(1, 250); (0, 255)]; [(1, 256); (0, 300)]]))
    [[(1, 250); (0, 255)]; [(1, 256); (0, 300)]].
Proof.
  apply (proj1 (sibling_counter_drift [[(1, 250); (0, 255)]; [(1, 256); (0, 300)]] 250 [255; 256; 300]
    ltac:(repeat constructor; discriminate) eq_refl ltac:(lia) eq_refl)).
Defined.

(** ** Extra property: the sibling decoder's redundancy filter *)

Section SiblingFilter.
Import Decoder.

Lemma removelast_snoc {A} (l : list A) x : removelast (l ++ [x]) = l.
Proof. rewrite removelast_app by discriminate; apply app_nil_r. Qed.

Lemma adjacent_all_equal x l :
  existsb (fun b => b) (adjacent_ne (x :: l)) = false <-> Forall (fun y => y = x) (x :: l).
Proof.
  revert x; induction l as [|y l IH]; intros x.
  - split; intros _; [repeat constructor | reflexivity].
  - change (existsb (fun b => b) (adjacent_ne (x :: y :: l))) with
           (negb (x =? y) || existsb (fun b => b) (adjacent_ne (y :: l))).
    rewrite orb_false_iff, negb_false_iff, Z.eqb_eq, IH.
    split.
    + intros [-> H]; constructor; [reflexivity|exact H].
    + intros H; inversion H as [|? ? _ H']; inversion H' as [|? ? Hy _]; subst.
      split; [reflexivity|exact H'].
Qed.

End SiblingFilter.

(** The sibling [_get_samples] returns [None] for a non-empty read exactly
    when every sample of the read equals the last stored sample: any change
    of the signals, including one between the last two samples, is kept. *)
Theorem sibling_filter_drops_only_repeats st data :
  data <> [] ->
  snd (SiblingDecoder.get_samples st data) = None <->
  exists v, match List.rev (SiblingDecoder.samples st) with
            | b :: _ => Some (List.last b 0) | [] => None end = Some v
         /\ Forall (fun x => x = v) (Decoder.evens data).
Proof.
  intros Hd; unfold SiblingDecoder.get_samples.
  destruct data as [|x0 data']; [congruence|].
  destruct (SiblingDecoder.convert _ _ _) as [[vs g'] lock'].
  set (smp := Decoder.evens (x0 :: data')).
  assert (Hs : exists x l, smp = x :: l)
    by (unfold smp; destruct data' as [|? [|? ?]]; cbn; eauto).
  destruct Hs as [x [l Hs]]; rewrite Hs.
  set (ls := match List.rev (SiblingDecoder.samples st) with
             | b :: _ => Some (List.last b 0) | [] => None end).
  unfold Decoder.sibling_drops; rewrite removelast_snoc; cbn [hd].
  destruct (existsb (fun b => b) (Decoder.adjacent_ne (x :: l))) eqn:E;
    cbn [negb andb snd].
  - split; [discriminate|].
    intros [v [Hv Hf]].
    assert (Hx : x = v) by (inversion Hf; assumption); subst v.
    apply adjacent_all_equal in Hf; congruence.
  - apply adjacent_all_equal in E.
    destruct ls as [v|]; cbn [Decoder.eq_last].
    + split.
      * destruct (Z.eqb_spec x v) as [->|Hne]; [|discriminate]; intros _.
        exists v; split; [reflexivity|exact E].
      * intros [v' [Hv Hf]]; inversion Hv; subst v'.
        inversion Hf; subst; rewrite Z.eqb_refl; reflexivity.
    + split; [discriminate|]; intros [v [Hv _]]; discriminate.
Qed.

(** Witness: after a stored batch ending in [0], a read whose signals go
    [0, 0, 1] is kept. *)
Lemma sibling_filter_drops_only_repeats_witness :
  [0; 10; 0; 11; 1; 12] <> [] /\
  (snd (SiblingDecoder.get_samples
          {| SiblingDecoder.global_counter := 0; SiblingDecoder.global_counter_lock := true;
             SiblingDecoder.samples := [[0]]; SiblingDecoder.timestamps := [[Decoder.tick_time 9]] |}
          [0; 10; 0; 11; 1; 12]) = None <->
   exists v, Some 0 = Some v /\ Forall (fun x => x = v) [0; 0; 1]).
Proof.
  split; [discriminate|].
  exact (sibling_filter_drops_only_repeats _ [0; 10; 0; 11; 1; 12] ltac:(discriminate)).
Defined.

Section AgreeProof.
Import Emulator Trace Agree.

Lemma sib_update_staged s i :
  MechState.update s i
  = sib_commit i (sib_motor (MechState.last_input s) i (sib_clock (MechState.last_input s) i
      (sib_latch (MechState.last_input s) i (sib_dst s i)))).
Proof. reflexivity. Qed.

Lemma dst_agree e r r' :
  last_timestamp e = timestamp r -> last_dst e = dst r ->
  sib_dst (to_sib e (Csv.mech_input_of_record r)) (Csv.mech_input_of_record r')
  = to_sib (fst (dst_step r' e)) (Csv.mech_input_of_record r).
Proof.
  intros Ht Hd; destruct e; cbn in Ht, Hd; subst.
  unfold dst_step, sib_dst; cbn; destruct (dst r); reflexivity.
Qed.

Lemma latch_agree e r r' :
  last_latch e = latch r ->
  sib_latch (Csv.mech_input_of_record r) (Csv.mech_input_of_record r')
    (to_sib e (Csv.mech_input_of_record r))
  = to_sib (fst (latch_step r' e)) (Csv.mech_input_of_record r).
Proof.
  intros Hl; unfold latch_step, sib_latch; rewrite Hl.
  destruct e; cbn [Csv.mi_latch Csv.mech_input_of_record];
  destruct (latch r), (latch r'); reflexivity.
Qed.

Lemma clock_agree e r r' :
  last_clock e = clock r ->
  sib_clock (Csv.mech_input_of_record r) (Csv.mech_input_of_record r')
    (to_sib e (Csv.mech_input_of_record r))
  = to_sib (fst (clock_step r' e)) (Csv.mech_input_of_record r).
Proof.
  intros Hc; unfold clock_step, sib_clock; rewrite Hc.
  destruct e; cbn [Csv.spi_clock Csv.spi_data Csv.mech_input_of_record].
  replace (Z.b2z (data r') =? 1) with (data r') by (destruct (data r'); reflexivity).
  destruct (clock r), (clock r'); reflexivity.
Qed.

Lemma lasts_dst r s :
  last_clock (fst (dst_step r s)) = last_clock s
  /\ last_motor_state (fst (dst_step r s)) = last_motor_state s.
Proof. unfold dst_step; destruct (last_dst s); split; reflexivity. Qed.

Lemma lasts_latch r s :
  last_clock (fst (latch_step r s)) = last_clock s
  /\ last_motor_state (fst (latch_step r s)) = last_motor_state s.
Proof. unfold latch_step; destruct (last_latch s && negb (latch r)); split; reflexivity. Qed.

Lemma update_before_motor e r r' :
  last_timestamp e = timestamp r -> last_clock e = clock r -> last_dst e = dst r ->
  last_latch e = latch r ->
  MechState.update (to_sib e (Csv.mech_input_of_record r)) (Csv.mech_input_of_record r')
  = sib_commit (Csv.mech_input_of_record r')
      (sib_motor (Csv.mech_input_of_record r) (Csv.mech_input_of_record r')
        (to_sib (fst (clock_step r' (fst (latch_step r' (fst (dst_step r' e))))))
           (Csv.mech_input_of_record r))).
Proof.
  intros Ht Hc Hd Hl.
  rewrite sib_update_staged; cbn [to_sib MechState.last_input].
  rewrite (dst_agree e r r' Ht Hd).
  destruct (lasts_dst r' e) as [D1 D2].
  rewrite (latch_agree _ r r'); [|unfold dst_step; destruct (last_dst e); exact Hl].
  destruct (lasts_latch r' (fst (dst_step r' e))) as [L1 L2].
  rewrite (clock_agree _ r r'); [reflexivity|rewrite L1, D1; exact Hc].
Qed.

End AgreeProof.

(** A sample that swaps the two motor phases ([motor1, motor2] going from
    [1, 0] to [0, 1] or back) leaves [input['motor1'] + input['motor2']]
    unchanged, so [PrintMechEmulator.update] counts no motor step, while
    [(motor_bl << 1) + motor_al] changes, so [PrintMechState.update] counts
    one and its motor step counter moves. *)
Theorem motor_phase_swap_seen_by_sibling_only e r r' :
  Emulator.last_timestamp e = timestamp r -> Emulator.last_clock e = clock r ->
  Emulator.last_dst e = dst r -> Emulator.last_latch e = latch r ->
  Emulator.last_motor_state e = Emulator.motor_state_of r ->
  motor1 r <> motor2 r -> motor1 r' = motor2 r -> motor2 r' = motor1 r ->
  Emulator.motor_steps (Emulator.update e r') = Emulator.motor_steps e
  /\ MechState.motor_steps
       (MechState.update (Agree.to_sib e (Csv.mech_input_of_record r)) (Csv.mech_input_of_record r'))
     <> Emulator.motor_steps e.
Proof.
  intros Ht Hc Hd Hl Hm Hne H1 H2.
  assert (Hsum : Emulator.motor_state_of r' = Emulator.motor_state_of r).
  { unfold Emulator.motor_state_of; rewrite H1, H2; lia. }
  assert (Hbits : (Csv.motor_state (Csv.mech_input_of_record r') =?
                   Csv.motor_state (Csv.mech_input_of_record r)) = false).
  { destruct r as [? ? ? ? ? [|] [|]], r' as [? ? ? ? ? [|] [|]];
      cbn in Hne, H1, H2 |- *; congruence. }
  destruct (before_motor r' e) as (B1 & B2 & _).
  split.
  - rewrite update_eq, motor_step_same; [exact B1|].
    rewrite B2, Hm; exact Hsum.
  - rewrite (update_before_motor e r r' Ht Hc Hd Hl).
    unfold Agree.sib_commit, Agree.sib_motor; rewrite Hbits.
    set (s3 := fst (Emulator.clock_step r' _)) in *.
    cbn [negb Agree.to_sib MechState.set_motor MechState.motor_steps MechState.paper].
    rewrite B1.
    destruct (Emulator.motor_steps e + 2 =? 2) eqn:E2.
    + unfold MechState.burn_latch_register; cbn [MechState.motor_steps MechState.set_motor].
      apply Z.eqb_eq in E2; lia.
    + destruct (4 <=? Emulator.motor_steps e + 2) eqn:E4;
        cbn [MechState.motor_steps MechState.set_motor MechState.burn_latch_register];
        [apply Z.leb_le in E4; apply Z.eqb_neq in E2| ]; lia.
Qed.

Lemma motor_phase_swap_seen_by_sibling_only_witness :
  Emulator.motor_steps (Emulator.update (Emulator.init (Scenario.rc 0 false false false false true false))
    (Scenario.rc 1 false false false false false true))
  = Emulator.motor_steps (Emulator.init (Scenario.rc 0 false false false false true false))
  /\ MechState.motor_steps
       (MechState.update
          (Agree.to_sib (Emulator.init (Scenario.rc 0 false false false false true false))
             (Csv.mech_input_of_record (Scenario.rc 0 false false false false true false)))
          (Csv.mech_input_of_record (Scenario.rc 1 false false false false false true)))
     <> Emulator.motor_steps (Emulator.init (Scenario.rc 0 false false false false true false)).
Proof.
  apply (motor_phase_swap_seen_by_sibling_only
           (Emulator.init (Scenario.rc 0 false false false false true false))
           (Scenario.rc 0 false false false false true false)
           (Scenario.rc 1 false false false false false true)); try reflexivity; discriminate.
Defined.
